(** * Adaptive quadrature: Simpson and Gauss-Lobatto/Kronrod integrators

    A shallow embedding of [src/quadrature.hpp] and the properties its
    specification states about it.

    - [Real] is modelled by [spec_float], the IEEE 754 binary formats of the
      Standard Library, for a format [prec]/[emax] chosen the way the header
      chooses [Real] ([std::float128_t] when available, [long double]
      otherwise).  Every arithmetic operation is the correctly rounded one.
    - The integrand is a function [Real -> Real]; every call of it is
      recorded in a trace, so that the sampled points and the number of
      evaluations are observable.
    - The recursive lambdas receive themselves as the argument [meta]; the
      embedding keeps that open recursion ([recursive_body]) and ties the
      knot with a fuel argument ([recursive]).
    - [Simpson_step] and [Lobatto_step] describe one recursive step the way
      the specification words it; the code is proved to compute them, and
      the properties of whole runs follow by induction on them. *)

From Stdlib Require Import ZArith NArith List Bool Lia.
From Stdlib Require Import Floats.SpecFloat.
From Stdlib Require Strings.String.
Import ListNotations.

(** ** Precision foundation *)

(** The floating-point format behind [Real]: [prec] bits of mantissa (the
    implicit one included), infinities at exponent [emax]. *)
Class Format : Type := { prec : Z; emax : Z }.

(** [std::float128_t] *)
Definition binary128 : Format := {| prec := 113; emax := 16384 |}.

(** [long double] on x86 (the fallback of the header) *)
Definition x87_extended : Format := {| prec := 64; emax := 16384 |}.

Definition Real : Type := spec_float.

Declare Scope real_scope.
Delimit Scope real_scope with real.
Bind Scope real_scope with Real.

Notation "x + y" := (SFadd prec emax x y) : real_scope.
Notation "x - y" := (SFsub prec emax x y) : real_scope.
Notation "x * y" := (SFmul prec emax x y) : real_scope.
Notation "x / y" := (SFdiv prec emax x y) : real_scope.
Notation "x <? y" := (SFltb x y) : real_scope.

Section Precision.
Context {fmt : Format}.

(** An integer literal converted to [Real]. *)
Definition of_Z (z : Z) : Real := binary_normalize prec emax z 0 false.

(** The power of two [2^e] as a [Real]. *)
Definition pow2 (e : Z) : Real := binary_normalize prec emax 1 e false.

(** [constexpr Real NaN = quiet_NaN()] *)
Definition NaN : Real := S754_nan.

(** [numeric_epsilon = std::numeric_limits<Real>::epsilon()] *)
Definition numeric_epsilon : Real := pow2 (1 - prec).

(** [numeric_interval = std::numeric_limits<double>::epsilon()] *)
Definition numeric_interval : Real := pow2 (-52).

(** [std::isfinite] *)
Definition isfinite (x : Real) : bool :=
  match x with
  | S754_zero _ | S754_finite _ _ _ => true
  | S754_infinity _ | S754_nan => false
  end.

(** [std::abs] *)
Definition abs (x : Real) : Real := SFabs x.

(** [std::sqrt] *)
Definition sqrt (x : Real) : Real := SFsqrt prec emax x.

(** [std::max(a, b)] is [(a < b) ? b : a]. *)
Definition max (a b : Real) : Real := if (a <? b)%real then b else a.

(** A [double] value converted to [Real] (the default [1e-10]). *)
Definition of_double (d : spec_float) : Real :=
  match d with
  | S754_finite s m e => binary_normalize prec emax (cond_Zopp s (Zpos m)) e false
  | _ => d
  end.

(** The literal [1e-10], a [double]. *)
Definition default_epsilon : Real :=
  of_double (SFdiv 53 1024 (binary_normalize 53 1024 1 0 false)
                           (binary_normalize 53 1024 (10 ^ 10) 0 false)).
End Precision.

(** [uint8_t] arithmetic wraps around at 256. *)
Definition uint8 (n : N) : N := (n mod 256)%N.

(** ** Runs: results with the trace of what the code did *)

(** [Sample x]: the integrand was called at [x].
    [Recurse s e d]: a recursive step decided to subdivide the interval
    from [s] to [e] and issues its recursive calls with depth [d]. *)
Inductive event : Type :=
| Sample (x : Real)
| Recurse (start_x end_x : Real) (depth : N).

(** A run returns a value together with its trace, or [None] when the fuel
    of the recursion ran out. *)
Definition Run (A : Type) : Type := option (A * list event).

Definition ret {A} (a : A) : Run A := Some (a, []).

Definition bind {A B} (m : Run A) (k : A -> Run B) : Run B :=
  match m with
  | None => None
  | Some (a, t1) =>
      match k a with
      | None => None
      | Some (b, t2) => Some (b, t1 ++ t2)
      end
  end.

Notation "x <- m ;; k" := (bind m (fun x => k))
  (at level 61, m at next level, right associativity).
Notation "m ;;; k" := (bind m (fun _ => k))
  (at level 61, right associativity).

(** Calling the integrand. *)
Definition call (function : Real -> Real) (x : Real) : Run Real :=
  Some (function x, [Sample x]).

(** Recording a ghost event. *)
Definition mark (e : event) : Run unit := Some (tt, [e]).

(** A run preceded by the events [t]. *)
Definition prefix {A} (t : list event) (m : Run A) : Run A :=
  match m with
  | Some (a, t') => Some (a, t ++ t')
  | None => None
  end.

Definition value {A} (m : Run A) : option A := option_map fst m.

Definition trace {A} (m : Run A) : list event :=
  match m with
  | Some (_, t) => t
  | None => []
  end.

(** The points at which a trace called the integrand. *)
Fixpoint samples (t : list event) : list Real :=
  match t with
  | [] => []
  | Sample x :: t' => x :: samples t'
  | Recurse _ _ _ :: t' => samples t'
  end.

(** The number of integrand evaluations of a trace. *)
Definition evaluations (t : list event) : nat := length (samples t).

(** A trace is poisoned when the integrand is not finite at one of the
    points it sampled. *)
Definition poisoned (f : Real -> Real) (t : list event) : Prop :=
  exists x, In x (samples t) /\ isfinite (f x) = false.

(** ** Simpson's rule integrator *)

Module Simpson.
Section Simpson.
Context {fmt : Format}.
Local Open Scope real_scope.

Record Data : Type := { x : Real; y : Real; area : Real }.

(** Simpson's rule, three point area approximation. *)
Definition evaluate (function : Real -> Real) (start end_ : Data) : Run Data :=
  let middle_x := (start.(x) + end_.(x)) / of_Z 2 in
  middle_y <- call function middle_x ;;
  ret {| x := middle_x;
         y := middle_y;
         area := abs (end_.(x) - start.(x))
                 * (start.(y) + of_Z 4 * middle_y + end_.(y)) / of_Z 6 |}.

(** The body of the lambda [recursive]; [meta] is its self reference. *)
Definition recursive_body (max_depth : N)
    (meta : (Real -> Real) -> Data -> Data -> Data -> Real -> N -> Run Real)
    (function : Real -> Real) (start middle end_ : Data)
    (epsilon : Real) (depth : N) : Run Real :=
  if (epsilon <? numeric_epsilon)
     || (abs (end_.(x) - start.(x)) <? numeric_interval)
  then ret middle.(area)
  else
    left <- evaluate function start middle ;;
    right <- evaluate function middle end_ ;;
    if negb (isfinite left.(y)) || negb (isfinite right.(y))
    then ret NaN
    else
      let error := (left.(area) + right.(area) - middle.(area)) / of_Z 15 in
      if abs error <? epsilon
      then ret (left.(area) + right.(area) + error)
      else
        (* ++depth *)
        let depth := uint8 (depth + 1) in
        if (max_depth <? depth)%N
        then ret (left.(area) + right.(area) + error)
        else
          mark (Recurse start.(x) end_.(x) depth) ;;;
          l <- meta function start left middle (epsilon / of_Z 2) depth ;;
          r <- meta function middle right end_ (epsilon / of_Z 2) depth ;;
          ret (l + r).

Fixpoint recursive (fuel : nat) (max_depth : N)
    (function : Real -> Real) (start middle end_ : Data)
    (epsilon : Real) (depth : N) : Run Real :=
  match fuel with
  | O => None
  | S fuel' =>
      recursive_body max_depth (recursive fuel' max_depth)
                     function start middle end_ epsilon depth
  end.

(** [a_max_depth] is a [uint8_t]; the embedding takes any natural number.
    The values the parameter can hold are those below 256, and a property
    that depends on it says so ([md < 256]).
    The recursion nests at most [max_depth + 1] calls, which is the fuel
    it is given. *)
Definition Simpson (function : Real -> Real) (a b : Real)
    (a_epsilon : Real) (a_max_depth : N) : Run Real :=
  (* if (b < a) std::swap(a, b) *)
  let '(a, b) := if b <? a then (b, a) else (a, b) in
  (* std::min(a_max_depth, 22) *)
  let max_depth := N.min a_max_depth 22 in
  let epsilon := max a_epsilon (of_Z 512 * numeric_epsilon) in
  start_y <- call function a ;;
  let start := {| x := a; y := start_y; area := of_Z 0 |} in
  end_y <- call function b ;;
  let end_ := {| x := b; y := end_y; area := of_Z 0 |} in
  middle <- evaluate function start end_ ;;
  if negb (isfinite start.(y)) || negb (isfinite end_.(y))
     || negb (isfinite middle.(y))
  then ret NaN
  else recursive (S (N.to_nat max_depth)) max_depth
                 function start middle end_ epsilon 0.
End Simpson.
End Simpson.

(** ** Gauss-Lobatto integrator with Kronrod extension *)

Module Lobatto.
Section Lobatto.
Context {fmt : Format}.
Local Open Scope real_scope.

Definition node_lobatto : Real := sqrt (of_Z 1 / of_Z 5).
Definition node_kronrod : Real := sqrt (of_Z 2 / of_Z 3).

Record Data : Type := { x : Real; y : Real }.

Definition set_y (p : Data) (v : Real) : Data := {| x := p.(x); y := v |}.

(** The body of the lambda [recursive]; [meta] is its self reference. *)
Definition recursive_body (max_depth : N) (epsilon : Real)
    (meta : (Real -> Real) -> Data -> Data -> N -> Run Real)
    (function : Real -> Real) (start end_ : Data) (depth : N) : Run Real :=
  let h := (end_.(x) - start.(x)) / of_Z 2 in
  let p4 := {| x := (start.(x) + end_.(x)) / of_Z 2; y := of_Z 0 |} in
  let p2 := {| x := p4.(x) - node_kronrod * h; y := of_Z 0 |} in
  let p3 := {| x := p4.(x) - node_lobatto * h; y := of_Z 0 |} in
  let p5 := {| x := p4.(x) + node_lobatto * h; y := of_Z 0 |} in
  let p6 := {| x := p4.(x) + node_kronrod * h; y := of_Z 0 |} in
  y2 <- call function p2.(x) ;; let p2 := set_y p2 y2 in
  y3 <- call function p3.(x) ;; let p3 := set_y p3 y3 in
  y4 <- call function p4.(x) ;; let p4 := set_y p4 y4 in
  y5 <- call function p5.(x) ;; let p5 := set_y p5 y5 in
  y6 <- call function p6.(x) ;; let p6 := set_y p6 y6 in
  (* Seven point area approximation *)
  let area_kronrod :=
    (h / of_Z 1470)
    * ((start.(y) + end_.(y)) * of_Z 77 + (p2.(y) + p6.(y)) * of_Z 432
       + (p3.(y) + p5.(y)) * of_Z 625 + p4.(y) * of_Z 672) in
  if negb (isfinite area_kronrod)
  then ret NaN
  else if abs h <? numeric_interval
  then ret area_kronrod
  else
    (* ++depth *)
    let depth := uint8 (depth + 1) in
    if (max_depth <? depth)%N
    then ret area_kronrod
    else
      (* Four point area approximation *)
      let area_lobatto :=
        (h / of_Z 6) * (start.(y) + end_.(y) + (p3.(y) + p5.(y)) * of_Z 5) in
      if abs (area_kronrod - area_lobatto) <? epsilon
      then ret area_kronrod
      else
        mark (Recurse start.(x) end_.(x) depth) ;;;
        r1 <- meta function start p2 depth ;;
        r2 <- meta function p2 p3 depth ;;
        r3 <- meta function p3 p4 depth ;;
        r4 <- meta function p4 p5 depth ;;
        r5 <- meta function p5 p6 depth ;;
        r6 <- meta function p6 end_ depth ;;
        ret (r1 + r2 + r3 + r4 + r5 + r6).

Fixpoint recursive (fuel : nat) (max_depth : N) (epsilon : Real)
    (function : Real -> Real) (start end_ : Data) (depth : N) : Run Real :=
  match fuel with
  | O => None
  | S fuel' =>
      recursive_body max_depth epsilon (recursive fuel' max_depth epsilon)
                     function start end_ depth
  end.

(** [a_max_depth] is a [uint8_t], as in Simpson: its values are those
    below 256. *)
Definition Lobatto (function : Real -> Real) (a b : Real)
    (a_epsilon : Real) (a_max_depth : N) : Run Real :=
  (* if (b < a) std::swap(a, b) *)
  let '(a, b) := if b <? a then (b, a) else (a, b) in
  (* std::min(a_max_depth, 8) *)
  let max_depth := N.min a_max_depth 8 in
  let epsilon := max a_epsilon numeric_epsilon in
  start_y <- call function a ;;
  let start := {| x := a; y := start_y |} in
  end_y <- call function b ;;
  let end_ := {| x := b; y := end_y |} in
  if negb (isfinite start.(y)) || negb (isfinite end_.(y))
  then ret NaN
  else recursive (S (N.to_nat max_depth)) max_depth epsilon
                 function start end_ 0.
End Lobatto.
End Lobatto.

(** ** The recursive steps, as the specification describes them *)

Section Specifications.
Context {fmt : Format}.
Local Open Scope real_scope.

(** *** Simpson *)

(** The three-point Simpson estimate over the interval between two
    samples, with its one new sample at the midpoint. *)
Definition Simpson_estimate (f : Real -> Real) (s e : Simpson.Data)
  : Simpson.Data :=
  let q := (Simpson.x s + Simpson.x e) / of_Z 2 in
  {| Simpson.x := q;
     Simpson.y := f q;
     Simpson.area := abs (Simpson.x e - Simpson.x s)
                     * (Simpson.y s + of_Z 4 * f q + Simpson.y e) / of_Z 6 |}.

(** The remaining epsilon is below machine epsilon, or the interval width
    is below NumericInterval. *)
Definition Simpson_stops (start end_ : Simpson.Data) (epsilon : Real) : bool :=
  (epsilon <? numeric_epsilon)
  || (abs (Simpson.x end_ - Simpson.x start) <? numeric_interval).

(** [error = (L + R - M) / 15] *)
Definition Simpson_error (f : Real -> Real)
    (start middle end_ : Simpson.Data) : Real :=
  (Simpson.area (Simpson_estimate f start middle)
   + Simpson.area (Simpson_estimate f middle end_)
   - Simpson.area middle) / of_Z 15.

(** [L + R + error], the error-corrected fine estimate. *)
Definition Simpson_corrected (f : Real -> Real)
    (start middle end_ : Simpson.Data) : Real :=
  Simpson.area (Simpson_estimate f start middle)
  + Simpson.area (Simpson_estimate f middle end_)
  + Simpson_error f start middle end_.

(** [|error| < epsilon], or the depth budget is exhausted. *)
Definition Simpson_accepts (max_depth : N) (f : Real -> Real)
    (start middle end_ : Simpson.Data) (epsilon : Real) (depth : N) : bool :=
  (abs (Simpson_error f start middle end_) <? epsilon)
  || (max_depth <? depth + 1)%N.

(** Both quarter-point samples are finite. *)
Definition Simpson_samples_finite (f : Real -> Real)
    (start middle end_ : Simpson.Data) : bool :=
  isfinite (Simpson.y (Simpson_estimate f start middle))
  && isfinite (Simpson.y (Simpson_estimate f middle end_)).

(** The trace of the two quarter-point samples. *)
Definition Simpson_quarter_samples (start middle end_ : Simpson.Data)
  : list event :=
  [Sample ((Simpson.x start + Simpson.x middle) / of_Z 2);
   Sample ((Simpson.x middle + Simpson.x end_) / of_Z 2)].

(** The Simpson recursive step read literally from the specification:
    stop, accept, or recurse; no case for a non-finite sample. *)
Inductive Simpson_claimed (f : Real -> Real) (max_depth : N)
  : Simpson.Data -> Simpson.Data -> Simpson.Data -> Real -> N -> Real -> Prop :=
| claimed_stop start middle end_ epsilon depth :
    Simpson_stops start end_ epsilon = true ->
    Simpson_claimed f max_depth start middle end_ epsilon depth
                    (Simpson.area middle)
| claimed_accept start middle end_ epsilon depth :
    Simpson_stops start end_ epsilon = false ->
    Simpson_accepts max_depth f start middle end_ epsilon depth = true ->
    Simpson_claimed f max_depth start middle end_ epsilon depth
                    (Simpson_corrected f start middle end_)
| claimed_recurse start middle end_ epsilon depth l r :
    Simpson_stops start end_ epsilon = false ->
    Simpson_accepts max_depth f start middle end_ epsilon depth = false ->
    Simpson_claimed f max_depth start (Simpson_estimate f start middle) middle
                    (epsilon / of_Z 2) (depth + 1) l ->
    Simpson_claimed f max_depth middle (Simpson_estimate f middle end_) end_
                    (epsilon / of_Z 2) (depth + 1) r ->
    Simpson_claimed f max_depth start middle end_ epsilon depth (l + r).

(** The Simpson recursive step with the case of a non-finite sample, and
    with the trace it leaves. *)
Inductive Simpson_step (f : Real -> Real) (max_depth : N)
  : Simpson.Data -> Simpson.Data -> Simpson.Data -> Real -> N
    -> Real -> list event -> Prop :=
| step_stop start middle end_ epsilon depth :
    Simpson_stops start end_ epsilon = true ->
    Simpson_step f max_depth start middle end_ epsilon depth
                 (Simpson.area middle) []
| step_poisoned start middle end_ epsilon depth :
    Simpson_stops start end_ epsilon = false ->
    Simpson_samples_finite f start middle end_ = false ->
    Simpson_step f max_depth start middle end_ epsilon depth
                 NaN (Simpson_quarter_samples start middle end_)
| step_accept start middle end_ epsilon depth :
    Simpson_stops start end_ epsilon = false ->
    Simpson_samples_finite f start middle end_ = true ->
    Simpson_accepts max_depth f start middle end_ epsilon depth = true ->
    Simpson_step f max_depth start middle end_ epsilon depth
                 (Simpson_corrected f start middle end_)
                 (Simpson_quarter_samples start middle end_)
| step_recurse start middle end_ epsilon depth l tl r tr :
    Simpson_stops start end_ epsilon = false ->
    Simpson_samples_finite f start middle end_ = true ->
    Simpson_accepts max_depth f start middle end_ epsilon depth = false ->
    Simpson_step f max_depth start (Simpson_estimate f start middle) middle
                 (epsilon / of_Z 2) (depth + 1) l tl ->
    Simpson_step f max_depth middle (Simpson_estimate f middle end_) end_
                 (epsilon / of_Z 2) (depth + 1) r tr ->
    Simpson_step f max_depth start middle end_ epsilon depth (l + r)
                 (Simpson_quarter_samples start middle end_
                  ++ Recurse (Simpson.x start) (Simpson.x end_) (depth + 1)
                  :: tl ++ tr).

(** *** Lobatto *)

(** Half-width and midpoint of the interval between two samples. *)
Definition Lobatto_h (s e : Lobatto.Data) : Real :=
  (Lobatto.x e - Lobatto.x s) / of_Z 2.

Definition Lobatto_mid (s e : Lobatto.Data) : Real :=
  (Lobatto.x s + Lobatto.x e) / of_Z 2.

(** The five nodes, symmetric about the midpoint, with their samples. *)
Definition Lobatto_p2 (f : Real -> Real) (s e : Lobatto.Data) : Lobatto.Data :=
  let x := Lobatto_mid s e - Lobatto.node_kronrod * Lobatto_h s e in
  {| Lobatto.x := x; Lobatto.y := f x |}.

Definition Lobatto_p3 (f : Real -> Real) (s e : Lobatto.Data) : Lobatto.Data :=
  let x := Lobatto_mid s e - Lobatto.node_lobatto * Lobatto_h s e in
  {| Lobatto.x := x; Lobatto.y := f x |}.

Definition Lobatto_p4 (f : Real -> Real) (s e : Lobatto.Data) : Lobatto.Data :=
  let x := Lobatto_mid s e in
  {| Lobatto.x := x; Lobatto.y := f x |}.

Definition Lobatto_p5 (f : Real -> Real) (s e : Lobatto.Data) : Lobatto.Data :=
  let x := Lobatto_mid s e + Lobatto.node_lobatto * Lobatto_h s e in
  {| Lobatto.x := x; Lobatto.y := f x |}.

Definition Lobatto_p6 (f : Real -> Real) (s e : Lobatto.Data) : Lobatto.Data :=
  let x := Lobatto_mid s e + Lobatto.node_kronrod * Lobatto_h s e in
  {| Lobatto.x := x; Lobatto.y := f x |}.

(** The weighted sum of the seven samples: 77, 432, 625, 672, 625, 432, 77. *)
Definition Lobatto_sum7 (f : Real -> Real) (s e : Lobatto.Data) : Real :=
  (Lobatto.y s + Lobatto.y e) * of_Z 77
  + (Lobatto.y (Lobatto_p2 f s e) + Lobatto.y (Lobatto_p6 f s e)) * of_Z 432
  + (Lobatto.y (Lobatto_p3 f s e) + Lobatto.y (Lobatto_p5 f s e)) * of_Z 625
  + Lobatto.y (Lobatto_p4 f s e) * of_Z 672.

(** The seven-point estimate: the weighted sum scaled by [h / 1470]. *)
Definition Lobatto_kronrod (f : Real -> Real) (s e : Lobatto.Data) : Real :=
  (Lobatto_h s e / of_Z 1470) * Lobatto_sum7 f s e.

(** The four-point estimate: weights 1, 5, 5, 1 scaled by [h / 6]. *)
Definition Lobatto_lobatto (f : Real -> Real) (s e : Lobatto.Data) : Real :=
  (Lobatto_h s e / of_Z 6)
  * (Lobatto.y s + Lobatto.y e
     + (Lobatto.y (Lobatto_p3 f s e) + Lobatto.y (Lobatto_p5 f s e)) * of_Z 5).

(** [|h|] is below NumericInterval, or the depth budget is exceeded. *)
Definition Lobatto_final (max_depth : N) (s e : Lobatto.Data) (depth : N)
  : bool :=
  (abs (Lobatto_h s e) <? numeric_interval) || (max_depth <? depth + 1)%N.

(** The two estimates differ by less than epsilon. *)
Definition Lobatto_converged (epsilon : Real) (f : Real -> Real)
    (s e : Lobatto.Data) : bool :=
  abs (Lobatto_kronrod f s e - Lobatto_lobatto f s e) <? epsilon.

(** The trace of the five samples, in the order the code takes them. *)
Definition Lobatto_node_samples (f : Real -> Real) (s e : Lobatto.Data)
  : list event :=
  [Sample (Lobatto.x (Lobatto_p2 f s e)); Sample (Lobatto.x (Lobatto_p3 f s e));
   Sample (Lobatto.x (Lobatto_p4 f s e)); Sample (Lobatto.x (Lobatto_p5 f s e));
   Sample (Lobatto.x (Lobatto_p6 f s e))].

(** The Lobatto recursive step read literally from the specification:
    final, converged, or six recursive calls; no case for a non-finite
    estimate. *)
Inductive Lobatto_claimed (f : Real -> Real) (max_depth : N) (epsilon : Real)
  : Lobatto.Data -> Lobatto.Data -> N -> Real -> Prop :=
| lclaimed_final s e depth :
    Lobatto_final max_depth s e depth = true ->
    Lobatto_claimed f max_depth epsilon s e depth (Lobatto_kronrod f s e)
| lclaimed_converged s e depth :
    Lobatto_final max_depth s e depth = false ->
    Lobatto_converged epsilon f s e = true ->
    Lobatto_claimed f max_depth epsilon s e depth (Lobatto_kronrod f s e)
| lclaimed_recurse s e depth r1 r2 r3 r4 r5 r6 :
    Lobatto_final max_depth s e depth = false ->
    Lobatto_converged epsilon f s e = false ->
    Lobatto_claimed f max_depth epsilon s (Lobatto_p2 f s e) (depth + 1) r1 ->
    Lobatto_claimed f max_depth epsilon (Lobatto_p2 f s e) (Lobatto_p3 f s e) (depth + 1) r2 ->
    Lobatto_claimed f max_depth epsilon (Lobatto_p3 f s e) (Lobatto_p4 f s e) (depth + 1) r3 ->
    Lobatto_claimed f max_depth epsilon (Lobatto_p4 f s e) (Lobatto_p5 f s e) (depth + 1) r4 ->
    Lobatto_claimed f max_depth epsilon (Lobatto_p5 f s e) (Lobatto_p6 f s e) (depth + 1) r5 ->
    Lobatto_claimed f max_depth epsilon (Lobatto_p6 f s e) e (depth + 1) r6 ->
    Lobatto_claimed f max_depth epsilon s e depth (r1 + r2 + r3 + r4 + r5 + r6).

(** The Lobatto recursive step with the case of a non-finite seven-point
    estimate, and with the trace it leaves. *)
Inductive Lobatto_step (f : Real -> Real) (max_depth : N) (epsilon : Real)
  : Lobatto.Data -> Lobatto.Data -> N -> Real -> list event -> Prop :=
| lstep_poisoned s e depth :
    isfinite (Lobatto_kronrod f s e) = false ->
    Lobatto_step f max_depth epsilon s e depth NaN (Lobatto_node_samples f s e)
| lstep_final s e depth :
    isfinite (Lobatto_kronrod f s e) = true ->
    Lobatto_final max_depth s e depth = true ->
    Lobatto_step f max_depth epsilon s e depth
                 (Lobatto_kronrod f s e) (Lobatto_node_samples f s e)
| lstep_converged s e depth :
    isfinite (Lobatto_kronrod f s e) = true ->
    Lobatto_final max_depth s e depth = false ->
    Lobatto_converged epsilon f s e = true ->
    Lobatto_step f max_depth epsilon s e depth
                 (Lobatto_kronrod f s e) (Lobatto_node_samples f s e)
| lstep_recurse s e depth r1 t1 r2 t2 r3 t3 r4 t4 r5 t5 r6 t6 :
    isfinite (Lobatto_kronrod f s e) = true ->
    Lobatto_final max_depth s e depth = false ->
    Lobatto_converged epsilon f s e = false ->
    Lobatto_step f max_depth epsilon s (Lobatto_p2 f s e) (depth + 1) r1 t1 ->
    Lobatto_step f max_depth epsilon (Lobatto_p2 f s e) (Lobatto_p3 f s e) (depth + 1) r2 t2 ->
    Lobatto_step f max_depth epsilon (Lobatto_p3 f s e) (Lobatto_p4 f s e) (depth + 1) r3 t3 ->
    Lobatto_step f max_depth epsilon (Lobatto_p4 f s e) (Lobatto_p5 f s e) (depth + 1) r4 t4 ->
    Lobatto_step f max_depth epsilon (Lobatto_p5 f s e) (Lobatto_p6 f s e) (depth + 1) r5 t5 ->
    Lobatto_step f max_depth epsilon (Lobatto_p6 f s e) e (depth + 1) r6 t6 ->
    Lobatto_step f max_depth epsilon s e depth (r1 + r2 + r3 + r4 + r5 + r6)
                 (Lobatto_node_samples f s e
                  ++ Recurse (Lobatto.x s) (Lobatto.x e) (depth + 1)
                  :: t1 ++ t2 ++ t3 ++ t4 ++ t5 ++ t6).
End Specifications.

(** ** The top-level calls, and the quantities the properties name *)

Section TopLevel.
Context {fmt : Format}.
Local Open Scope real_scope.

(** The bounds after [if (b < a) std::swap(a, b)]. *)
Definition ordered (a b : Real) : Real * Real :=
  if b <? a then (b, a) else (a, b).

Definition Simpson_start (f : Real -> Real) (a b : Real) : Simpson.Data :=
  {| Simpson.x := fst (ordered a b); Simpson.y := f (fst (ordered a b));
     Simpson.area := of_Z 0 |}.

Definition Simpson_end (f : Real -> Real) (a b : Real) : Simpson.Data :=
  {| Simpson.x := snd (ordered a b); Simpson.y := f (snd (ordered a b));
     Simpson.area := of_Z 0 |}.

Definition Simpson_middle (f : Real -> Real) (a b : Real) : Simpson.Data :=
  Simpson_estimate f (Simpson_start f a b) (Simpson_end f a b).

(** 512 times machine epsilon, the floor of Simpson's epsilon. *)
Definition Simpson_floor : Real := of_Z 512 * numeric_epsilon.

Definition Lobatto_start (f : Real -> Real) (a b : Real) : Lobatto.Data :=
  {| Lobatto.x := fst (ordered a b); Lobatto.y := f (fst (ordered a b)) |}.

Definition Lobatto_end (f : Real -> Real) (a b : Real) : Lobatto.Data :=
  {| Lobatto.x := snd (ordered a b); Lobatto.y := f (snd (ordered a b)) |}.

(** The three samples the top-level call of Simpson takes, and whether
    the integrand is finite at all of them. *)
Definition Simpson_first_samples (f : Real -> Real) (a b : Real)
  : list event :=
  [Sample (Simpson.x (Simpson_start f a b));
   Sample (Simpson.x (Simpson_end f a b));
   Sample (Simpson.x (Simpson_middle f a b))].

Definition Simpson_endpoints_finite (f : Real -> Real) (a b : Real) : bool :=
  isfinite (Simpson.y (Simpson_start f a b))
  && isfinite (Simpson.y (Simpson_end f a b))
  && isfinite (Simpson.y (Simpson_middle f a b)).

(** The two samples the top-level call of Lobatto takes. *)
Definition Lobatto_first_samples (f : Real -> Real) (a b : Real)
  : list event :=
  [Sample (Lobatto.x (Lobatto_start f a b));
   Sample (Lobatto.x (Lobatto_end f a b))].

Definition Lobatto_endpoints_finite (f : Real -> Real) (a b : Real) : bool :=
  isfinite (Lobatto.y (Lobatto_start f a b))
  && isfinite (Lobatto.y (Lobatto_end f a b)).

(** The sum of the three samples of Simpson's rule, weights 1, 4, 1. *)
Definition Simpson_sum3 (f : Real -> Real) (s e : Simpson.Data) : Real :=
  Simpson.y s + of_Z 4 * f ((Simpson.x s + Simpson.x e) / of_Z 2) + Simpson.y e.

(** Two bounds that are zeros of opposite sign: equal for [==], but
    different values. *)
Definition opposite_zeros (a b : Real) : bool :=
  match a, b with
  | S754_zero sa, S754_zero sb => xorb sa sb
  | _, _ => false
  end.

(** [std::signbit] *)
Definition signbit (x : Real) : bool :=
  match x with
  | S754_zero s | S754_infinity s | S754_finite s _ _ => s
  | S754_nan => false
  end.

Definition is_zero (x : Real) : bool :=
  match x with
  | S754_zero _ => true
  | _ => false
  end.

Definition nonzero_finite (x : Real) : bool :=
  match x with
  | S754_finite _ _ _ => true
  | _ => false
  end.

(** The format represents the literals the degenerate interval meets as
    non-zero numbers, and NumericInterval as a positive one. *)
Definition literals_ok : bool :=
  nonzero_finite (of_Z 2) && nonzero_finite (of_Z 6)
  && nonzero_finite (of_Z 1470)
  && (S754_zero false <? numeric_interval).

(** The estimated error of a Simpson step taken relative to the fine
    estimate [L + R], as a relative-error reading of epsilon has it. *)
Definition Simpson_relative_error (f : Real -> Real)
    (start middle end_ : Simpson.Data) : Real :=
  Simpson_error f start middle end_
  / (Simpson.area (Simpson_estimate f start middle)
     + Simpson.area (Simpson_estimate f middle end_)).

(** *** Integrands used as examples *)

(** [6x^2 - 8x + 5], from the demonstration driver. *)
Definition func_poly (x : Real) : Real :=
  of_Z 6 * x * x - of_Z 8 * x + of_Z 5.

(** [1 / (c x - 1)^2]: infinite at [x = 1/c], finite elsewhere. *)
Definition func_pole (c : Z) (x : Real) : Real :=
  of_Z 1 / ((of_Z c * x - of_Z 1) * (of_Z c * x - of_Z 1)).

(** A constant integrand. *)
Definition func_const (c x : Real) : Real := c.

(** The finite number [2^(emax - 1)], the largest power of two. *)
Definition huge : Real := pow2 (emax - 1).

(** [signbit(x) ? -7 * 2^(emax-5) : 7 * 2^(emax-5)] *)
Definition func_sign (x : Real) : Real :=
  if signbit x
  then binary_normalize prec emax (-7) (emax - 5) false
  else binary_normalize prec emax 7 (emax - 5) false.

(** [2^-40 x^4] *)
Definition func_small_quartic (x : Real) : Real :=
  pow2 (-40) * (x * x * x * x).

(** [x < c ? 0 : 1]: a unit step at [c]. *)
Definition func_step (c x : Real) : Real :=
  if x <? c then of_Z 0 else of_Z 1.
End TopLevel.

(** *** An overflowing run in binary128 *)

Section Overflow.
Local Existing Instance binary128.



End Overflow.

(** *** Well-formed formats *)

Section WellFormed.
Context {fmt : Format}.

(** A [Real] is one of the numbers of the format. *)
Definition valid (x : Real) : bool := valid_binary prec emax x.

(** The mantissa and exponent that [shr_fexp] leaves: shifted right up to
    the rounding exponent. *)
Definition shifted (m e : Z) : Z * Z :=
  let n := (fexp prec emax (Zdigits2 m + e) - e)%Z in
  if (0 <? n)%Z then ((m / 2 ^ n)%Z, (e + n)%Z) else (m, e).

(** The format has at least one bit of mantissa and a non-positive least
    exponent; it represents the Lobatto nodes, a literal 2 of magnitude
    at least 2, and NumericInterval as a positive normal number no
    greater than the least mantissa of its binade. *)
Definition Lobatto_format_ok : bool :=
  (0 <? prec)%Z && (emin prec emax <=? 0)%Z
  && valid Lobatto.node_lobatto && valid Lobatto.node_kronrod
  && match of_Z 2 with
     | S754_finite _ m e => (2 <=? Zdigits2 (Zpos m) + e)%Z
     | _ => false
     end
  && match numeric_interval with
     | S754_finite false m e =>
         (emin prec emax <? e)%Z && (Zpos m <=? 2 ^ (prec - 1))%Z
     | _ => false
     end.
End WellFormed.

(** ** Further quantities: subdivisions, halved tolerances, printing *)

(** The number of subdivisions a trace records. *)
Fixpoint subdivisions (t : list event) : nat :=
  match t with
  | [] => O
  | Sample _ :: t' => subdivisions t'
  | Recurse _ _ _ :: t' => S (subdivisions t')
  end.

(** The greatest depth at which a trace records a subdivision, 0 when it
    records none. *)
Fixpoint deepest (t : list event) : N :=
  match t with
  | [] => 0%N
  | Sample _ :: t' => deepest t'
  | Recurse _ _ d :: t' => N.max d (deepest t')
  end.

Section Further.
Context {fmt : Format}.
Local Open Scope real_scope.

(** The tolerance that reaches a call of Simpson's [recursive] [k] levels
    down: [epsilon / 2], [k] times over. *)
Fixpoint halved (k : nat) (epsilon : Real) : Real :=
  match k with
  | O => epsilon
  | S k' => halved k' (epsilon / of_Z 2)
  end.

(** Two neighbouring sample points whose difference is a NaN: one is a
    NaN, or both are the same infinity. *)
Definition undefined_width (p q : Real) : Prop :=
  p = NaN \/ q = NaN \/ exists sg, p = S754_infinity sg /\ q = S754_infinity sg.

(** The value of a single Lobatto panel over the whole interval: the
    seven-point estimate, or NaN when a sample or the estimate is not
    finite. *)
Definition Lobatto_panel (f : Real -> Real) (a b : Real) : Real :=
  if Lobatto_endpoints_finite f a b
     && isfinite (Lobatto_kronrod f (Lobatto_start f a b) (Lobatto_end f a b))
  then Lobatto_kronrod f (Lobatto_start f a b) (Lobatto_end f a b)
  else NaN.

(** The value of Simpson's rule over the whole interval without any
    refinement: the three-point estimate, or NaN when a sample is not
    finite. *)
Definition Simpson_panel (f : Real -> Real) (a b : Real) : Real :=
  if Simpson_endpoints_finite f a b
  then Simpson.area (Simpson_middle f a b)
  else NaN.
End Further.

(** *** Printing a [Real] *)

Section Printing.
Context {fmt : Format}.

(** [std::numeric_limits<Real>::digits10]: the largest [d] with
    [10^d <= 2^(prec - 1)]. *)
Definition digits10 : N :=
  N.of_nat (List.length
              (filter (fun d => (10 ^ Z.of_nat d <=? 2 ^ (prec - 1))%Z)
                      (seq 1 (Z.to_nat prec)))).

(** [constexpr auto max_digits{ digits10 + 1 }] *)
Definition max_digits : N := (digits10 + 1)%N.

(** [std::format] is library code, and its two uses are parameters:
    [format_fixed value n] stands for [std::format("{: .{}f}", value, n)]
    and [format_general value] for [std::format("{: }", value)]. *)
Variable format_fixed : Real -> N -> String.string.
Variable format_general : Real -> String.string.

(** [decimals] is a [uint8_t], whose values are those below 256 (a
    property that depends on it says so), and so is the [max_digits] that
    [std::min<uint8_t>] takes. *)
Definition RealToString (value : Real) (decimals : N) : String.string :=
  if (decimals =? 0)%N
  then format_general value
  else format_fixed value (N.min decimals (uint8 max_digits)).

(** [operator<<]: the text is appended to the stream [os]; the number of
    decimals is [std::cout.precision()], a [std::streamsize], converted to
    the [uint8_t] that [RealToString] takes. *)
Definition operator_shl (os : String.string) (cout_precision : Z) (value : Real)
  : String.string :=
  String.append os (RealToString value (Z.to_N (cout_precision mod 256))).
End Printing.

(** ** Facts about the floating-point format *)

Section FloatFacts.
Context {fmt : Format}.
Local Open Scope Z_scope.

(** *** Digits *)

Lemma digits2_pos_size p : digits2_pos p = Pos.size p.
Proof. induction p; simpl; congruence. Qed.

Lemma Zdigits2_nonneg m : 0 <= Zdigits2 m.
Proof. destruct m; simpl; lia. Qed.

Lemma Zdigits2_log2 m : 0 < m -> Zdigits2 m = Z.log2 m + 1.
Proof.
  destruct m as [|p|p]; try lia. intros _. simpl.
  rewrite digits2_pos_size. destruct p; simpl; lia.
Qed.

Lemma Zdigits2_bounds m :
  0 < m -> 2 ^ (Zdigits2 m - 1) <= m < 2 ^ Zdigits2 m.
Proof.
  intros Hm. rewrite (Zdigits2_log2 m Hm).
  replace (Z.log2 m + 1 - 1) with (Z.log2 m) by lia.
  replace (Z.log2 m + 1) with (Z.succ (Z.log2 m)) by lia.
  now apply Z.log2_spec.
Qed.

Lemma Zdigits2_unique m d :
  0 < m -> 2 ^ (d - 1) <= m < 2 ^ d -> Zdigits2 m = d.
Proof.
  intros Hm H. rewrite (Zdigits2_log2 m Hm).
  assert (0 <= d - 1).
  { destruct (Z.le_gt_cases 0 (d - 1)) as [|Hneg]; [assumption|].
    assert (d <= 0) by lia.
    assert (2 ^ d <= 1).
    { destruct (Z.eq_dec d 0) as [->|]; [simpl; lia|].
      rewrite Z.pow_neg_r by lia. lia. }
    lia. }
  rewrite (Z.log2_unique m (d - 1)); try lia.
  replace (Z.succ (d - 1)) with d by lia. exact H.
Qed.

Lemma Zdigits2_pos m : 0 < m -> 0 < Zdigits2 m.
Proof. intros H. rewrite Zdigits2_log2 by assumption. pose proof (Z.log2_nonneg m). lia. Qed.

(** Shifting [m] right by [n] removes [n] digits. *)
Lemma Zdigits2_div_pow2 m n :
  0 < m -> 0 <= n -> n < Zdigits2 m ->
  0 < m / 2 ^ n /\ Zdigits2 (m / 2 ^ n) = Zdigits2 m - n.
Proof.
  intros Hm Hn Hd. pose proof (Zdigits2_bounds m Hm) as [Hlo Hhi].
  assert (Hp : 0 < 2 ^ n) by (apply Z.pow_pos_nonneg; lia).
  assert (Hq : 2 ^ (Zdigits2 m - n - 1) <= m / 2 ^ n).
  { apply Z.div_le_lower_bound; [assumption|].
    rewrite <- Z.pow_add_r by lia.
    replace (n + (Zdigits2 m - n - 1)) with (Zdigits2 m - 1) by lia. exact Hlo. }
  assert (Hq' : m / 2 ^ n < 2 ^ (Zdigits2 m - n)).
  { apply Z.div_lt_upper_bound; [assumption|].
    rewrite <- Z.pow_add_r by lia.
    replace (n + (Zdigits2 m - n)) with (Zdigits2 m) by lia. exact Hhi. }
  assert (0 < 2 ^ (Zdigits2 m - n - 1)) by (apply Z.pow_pos_nonneg; lia).
  split; [lia|].
  apply Zdigits2_unique; [lia|]. split; assumption.
Qed.

Lemma div_pow2_zero m n :
  0 <= m -> 0 <= n -> Zdigits2 m <= n -> m / 2 ^ n = 0.
Proof.
  intros Hm Hn Hd. destruct (Z.eq_dec m 0) as [->|Hne].
  - apply Z.div_0_l. apply Z.pow_nonzero; lia.
  - apply Z.div_small. split; [assumption|].
    pose proof (Zdigits2_bounds m ltac:(lia)) as [_ Hhi].
    eapply Z.lt_le_trans; [exact Hhi|]. apply Z.pow_le_mono_r; lia.
Qed.

(** Adding one adds at most one digit, and then gives a power of two. *)
Lemma Zdigits2_succ m :
  0 <= m ->
  Zdigits2 (m + 1) = Zdigits2 m
  \/ (Zdigits2 (m + 1) = Zdigits2 m + 1 /\ m + 1 = 2 ^ Zdigits2 m).
Proof.
  intros Hm. destruct (Z.eq_dec m 0) as [->|Hne]; [right; split; reflexivity|].
  pose proof (Zdigits2_bounds m ltac:(lia)) as [Hlo Hhi].
  destruct (Z.eq_dec (m + 1) (2 ^ Zdigits2 m)) as [E|NE].
  - right. split; [|exact E].
    apply Zdigits2_unique; [lia|].
    replace (Zdigits2 m + 1 - 1) with (Zdigits2 m) by lia.
    rewrite Z.pow_add_r by (pose proof (Zdigits2_nonneg m); lia).
    simpl (2 ^ 1). lia.
  - left. apply Zdigits2_unique; [lia|]. lia.
Qed.

(** *** The rounding exponent *)

Lemma fexp_mono a b : a <= b -> fexp prec emax a <= fexp prec emax b.
Proof. unfold fexp. lia. Qed.

(** *** Shifting right *)

Lemma shr_1_m mrs : 0 <= shr_m mrs -> shr_m (shr_1 mrs) = shr_m mrs / 2.
Proof.
  destruct mrs as [m r s]. cbn [shr_m]. intros Hm.
  destruct m as [|[p|p|]|p]; cbn [shr_1 shr_m]; try lia.
  - reflexivity.
  - apply Z.div_unique with (r := 1); lia.
  - apply Z.div_unique with (r := 0); lia.
  - reflexivity.
Qed.

Lemma shr_1_nonneg mrs : 0 <= shr_m mrs -> 0 <= shr_m (shr_1 mrs).
Proof. intros H. rewrite shr_1_m by assumption. apply Z.div_pos; lia. Qed.

Lemma pow2_xI n : 2 ^ Zpos n~1 = 2 * 2 ^ Zpos n * 2 ^ Zpos n.
Proof.
  replace (Zpos n~1) with (1 + Z.pos n + Z.pos n) by lia.
  rewrite Z.pow_add_r, Z.pow_add_r by lia. reflexivity.
Qed.

Lemma pow2_xO n : 2 ^ Zpos n~0 = 2 ^ Zpos n * 2 ^ Zpos n.
Proof.
  replace (Zpos n~0) with (Z.pos n + Z.pos n) by lia.
  rewrite Z.pow_add_r by lia. reflexivity.
Qed.

Lemma iter_shr_1_m n : forall mrs,
  0 <= shr_m mrs ->
  shr_m (iter_pos shr_1 n mrs) = shr_m mrs / 2 ^ Zpos n.
Proof.
  assert (Hp : forall k, 0 < 2 ^ Zpos k) by (intros; apply Z.pow_pos_nonneg; lia).
  induction n as [n IH|n IH|]; intros mrs Hm; cbn [iter_pos].
  - assert (H1 := shr_1_nonneg mrs Hm).
    assert (H2 : 0 <= shr_m (iter_pos shr_1 n (shr_1 mrs))).
    { rewrite IH by assumption. apply Z.div_pos; [assumption|apply Hp]. }
    rewrite IH, IH, shr_1_m by assumption.
    pose proof (Hp n).
    rewrite !Z.div_div by lia.
    f_equal. rewrite pow2_xI. ring.
  - assert (H2 : 0 <= shr_m (iter_pos shr_1 n mrs)).
    { rewrite IH by assumption. apply Z.div_pos; [assumption|apply Hp]. }
    rewrite IH, IH by assumption.
    pose proof (Hp n).
    rewrite !Z.div_div by lia.
    f_equal. rewrite pow2_xO. ring.
  - rewrite shr_1_m by assumption. reflexivity.
Qed.

Lemma shr_record_of_loc_m m l : shr_m (shr_record_of_loc m l) = m.
Proof. destruct l as [|[]]; reflexivity. Qed.

Lemma shr_fexp_shifted m e l :
  0 <= m ->
  (shr_m (fst (shr_fexp prec emax m e l)), snd (shr_fexp prec emax m e l))
  = shifted m e.
Proof.
  intros Hm. unfold shr_fexp, shifted, shr.
  destruct (fexp prec emax (Zdigits2 m + e) - e) as [|n|n] eqn:En; simpl.
  - now rewrite shr_record_of_loc_m.
  - rewrite iter_shr_1_m by (rewrite shr_record_of_loc_m; assumption).
    now rewrite shr_record_of_loc_m.
  - now rewrite shr_record_of_loc_m.
Qed.

Lemma shifted_spec m e m' e' :
  0 <= m -> shifted m e = (m', e') ->
  0 <= m' /\ m' <= m
  /\ e' = Z.max e (fexp prec emax (Zdigits2 m + e))
  /\ (0 < m' -> Zdigits2 m' + e' = Zdigits2 m + e)
  /\ (e' = e -> m' = m)
  /\ (m' = 0 -> e < e' -> Zdigits2 m + e <= e').
Proof.
  intros Hm. unfold shifted.
  set (n := fexp prec emax (Zdigits2 m + e) - e).
  pose proof (Zdigits2_nonneg m) as Hd.
  destruct (0 <? n) eqn:Hn; intros [= <- <-].
  - apply Z.ltb_lt in Hn.
    assert (Hp : 0 < 2 ^ n) by (apply Z.pow_pos_nonneg; lia).
    assert (H0 : 0 <= m / 2 ^ n) by (apply Z.div_pos; lia).
    assert (Hle : m / 2 ^ n <= m).
    { apply Z.div_le_upper_bound; [lia|]. nia. }
    repeat split; try lia.
    + intros Hq. destruct (Z.lt_ge_cases n (Zdigits2 m)) as [Hlt|Hge].
      * assert (0 < m) by (destruct (Z.eq_dec m 0); [subst; simpl in Hlt; lia|lia]).
        destruct (Zdigits2_div_pow2 m n) as [_ ->]; lia.
      * rewrite div_pow2_zero in Hq; lia.
    + intros Hz _. destruct (Z.lt_ge_cases n (Zdigits2 m)) as [Hlt|Hge]; [|lia].
      assert (0 < m) by (destruct (Z.eq_dec m 0); [subst; simpl in Hlt; lia|lia]).
      destruct (Zdigits2_div_pow2 m n) as [Hq _]; lia.
  - apply Z.ltb_ge in Hn. repeat split; try lia.
Qed.

(** What two shifts around a rounding step leave: the exponent is
    bounded, and the mantissa is canonical when the input had digits
    enough. *)
Lemma round_shape mx ex m1 e1 m2 m3 e3 :
  0 < prec -> 0 <= mx ->
  shifted mx ex = (m1, e1) ->
  m2 = m1 \/ m2 = m1 + 1 ->
  shifted m2 e1 = (m3, e3) ->
  0 <= m3
  /\ e3 <= Z.max ex (fexp prec emax (Zdigits2 mx + ex + 1))
  /\ (ex <= fexp prec emax (Zdigits2 mx + ex) -> 0 < m3 ->
      fexp prec emax (Zdigits2 m3 + e3) = e3).
Proof.
  intros Hprec Hmx E1 Hm2 E3.
  destruct (shifted_spec mx ex m1 e1 Hmx E1) as (H1a & H1b & H1c & H1d & H1e & H1f).
  assert (Hm2' : 0 <= m2) by lia.
  destruct (shifted_spec m2 e1 m3 e3 Hm2' E3) as (H3a & H3b & H3c & H3d & H3e & H3f).
  pose proof (Zdigits2_nonneg mx) as Hdx.
  assert (Hd2 : Zdigits2 m1 <= Zdigits2 m2 <= Zdigits2 m1 + 1).
  { destruct Hm2 as [->| ->]; [lia|].
    destruct (Zdigits2_succ m1 H1a) as [->|[-> _]]; lia. }
  assert (Hz : m1 = 0 -> Zdigits2 m1 = 0) by (intros ->; reflexivity).
  split; [assumption|].
  destruct (Z.eq_dec m1 0) as [Hm1|Hm1].
  - specialize (Hz Hm1).
    destruct (Z.eq_dec e1 ex) as [He|He].
    + specialize (H1e He). assert (mx = 0) by lia. subst mx. simpl Zdigits2 in *.
      unfold fexp in *. split; [lia|]. intros Hc Hm3. specialize (H3d Hm3). lia.
    + assert (ex < e1) by lia. specialize (H1f Hm1 H).
      unfold fexp in *. split; [lia|]. intros Hc Hm3. specialize (H3d Hm3). lia.
  - assert (Hm1' : 0 < m1) by lia. specialize (H1d Hm1').
    unfold fexp in *. split; [lia|]. intros Hc Hm3. specialize (H3d Hm3). lia.
Qed.

Lemma round_nearest_even_cases m l :
  round_nearest_even m l = m \/ round_nearest_even m l = m + 1.
Proof. destruct l as [|[]]; simpl; auto. destruct (Z.even m); auto. Qed.

(** The result of [binary_round_aux], from the integers it computes. *)
Lemma binary_round_aux_shape sx mx ex lx :
  0 <= mx ->
  exists m1 e1 m2 m3 e3,
    shifted mx ex = (m1, e1) /\ (m2 = m1 \/ m2 = m1 + 1)
    /\ shifted m2 e1 = (m3, e3)
    /\ binary_round_aux prec emax sx mx ex lx
       = match m3 with
         | Z0 => S754_zero sx
         | Zpos m => if e3 <=? emax - prec then S754_finite sx m e3
                     else S754_infinity sx
         | Zneg _ => S754_nan
         end.
Proof.
  intros Hmx. unfold binary_round_aux.
  pose proof (shr_fexp_shifted mx ex lx Hmx) as E1.
  destruct (shr_fexp prec emax mx ex lx) as [mrs' e'] eqn:S1. cbn [fst snd] in E1.
  set (m2 := round_nearest_even (shr_m mrs') (loc_of_shr_record mrs')).
  assert (Hm1 : 0 <= shr_m mrs').
  { destruct (shifted_spec mx ex _ _ Hmx (eq_sym E1)) as (H & _). exact H. }
  assert (Hm2 : m2 = shr_m mrs' \/ m2 = shr_m mrs' + 1)
    by apply round_nearest_even_cases.
  assert (Hm2' : 0 <= m2) by lia.
  pose proof (shr_fexp_shifted m2 e' loc_Exact Hm2') as E3.
  destruct (shr_fexp prec emax m2 e' loc_Exact) as [mrs'' e''] eqn:S3.
  cbn [fst snd] in E3.
  exists (shr_m mrs'), e', m2, (shr_m mrs''), e''.
  repeat split; auto.
Qed.

(** The result of [binary_round_aux] is a zero, an infinity, or a number
    whose exponent is bounded; it is a valid number when the input had
    digits enough. *)
Lemma binary_round_aux_cases sx mx ex lx :
  0 < prec -> 0 <= mx ->
  binary_round_aux prec emax sx mx ex lx = S754_zero sx
  \/ (exists e, binary_round_aux prec emax sx mx ex lx = S754_infinity sx
            /\ emax - prec < e
            /\ e <= Z.max ex (fexp prec emax (Zdigits2 mx + ex + 1)))
  \/ (exists m e, binary_round_aux prec emax sx mx ex lx = S754_finite sx m e
              /\ e <= Z.max ex (fexp prec emax (Zdigits2 mx + ex + 1))
              /\ e <= emax - prec
              /\ (ex <= fexp prec emax (Zdigits2 mx + ex) ->
                  bounded prec emax m e = true)).
Proof.
  intros Hprec Hmx.
  destruct (binary_round_aux_shape sx mx ex lx Hmx)
    as (m1 & e1 & m2 & m3 & e3 & E1 & Hm2 & E3 & ->).
  destruct (round_shape mx ex m1 e1 m2 m3 e3 Hprec Hmx E1 Hm2 E3)
    as (Hm3 & Hbound & Hcanon).
  destruct m3 as [|m|m]; [left; reflexivity| |lia].
  right. destruct (e3 <=? emax - prec) eqn:He.
  - right. apply Z.leb_le in He. exists m, e3. repeat split; auto.
    intros Hc. unfold bounded, canonical_mantissa.
    change (Z.pos (digits2_pos m)) with (Zdigits2 (Z.pos m)).
    rewrite (Hcanon Hc ltac:(lia)), Z.eqb_refl. simpl. now apply Z.leb_le.
  - left. apply Z.leb_gt in He. exists e3. auto.
Qed.

Lemma binary_round_aux_valid sx mx ex lx :
  0 < prec -> 0 <= mx -> ex <= fexp prec emax (Zdigits2 mx + ex) ->
  valid_binary prec emax (binary_round_aux prec emax sx mx ex lx) = true.
Proof.
  intros Hprec Hmx Hc.
  destruct (binary_round_aux_cases sx mx ex lx Hprec Hmx)
    as [-> | [(e & -> & _) | (m & e & -> & _ & _ & Hb)]]; simpl; auto.
Qed.

(** *** Valid numbers stay valid *)

Lemma digits2_pos_iter_xO m d :
  Zpos (digits2_pos (Pos.iter xO m d)) = Zpos (digits2_pos m) + Zpos d.
Proof.
  induction d as [|d IH] using Pos.peano_ind.
  - simpl. lia.
  - rewrite Pos.iter_succ. cbn [digits2_pos]. lia.
Qed.

Lemma shl_align_spec mx ex ex' mz ez :
  shl_align mx ex ex' = (mz, ez) ->
  ez = Z.min ex ex'
  /\ Zdigits2 (Zpos mz) + ez = Zdigits2 (Zpos mx) + ex.
Proof.
  unfold shl_align. destruct (ex' - ex) as [|d|d] eqn:Ed; intros [= <- <-].
  - split; lia.
  - split; lia.
  - cbn [Zdigits2]. rewrite digits2_pos_iter_xO. split; lia.
Qed.

Lemma binary_round_valid s m e :
  0 < prec -> valid_binary prec emax (binary_round prec emax s m e) = true.
Proof.
  intros Hprec. unfold binary_round.
  destruct (shl_align m e (fexp prec emax (Z.pos (digits2_pos m) + e)))
    as [mz ez] eqn:E.
  apply shl_align_spec in E. destruct E as [Hez Hd].
  apply binary_round_aux_valid; [assumption|lia|].
  rewrite Hd. cbn [Zdigits2]. lia.
Qed.

Lemma binary_normalize_valid m e sz :
  0 < prec -> valid_binary prec emax (binary_normalize prec emax m e sz) = true.
Proof.
  intros Hprec. destruct m; simpl; auto using binary_round_valid.
Qed.

Lemma SFadd_valid x y :
  0 < prec -> valid_binary prec emax x = true -> valid_binary prec emax y = true ->
  valid_binary prec emax (SFadd prec emax x y) = true.
Proof.
  intros Hprec Hx Hy.
  destruct x as [sx|sx| |sx mx ex], y as [sy|sy| |sy my ey];
    try (destruct sx, sy); cbn [SFadd]; auto.
  all: now apply binary_normalize_valid.
Qed.

Lemma SFsub_valid x y :
  0 < prec -> valid_binary prec emax x = true -> valid_binary prec emax y = true ->
  valid_binary prec emax (SFsub prec emax x y) = true.
Proof.
  intros Hprec Hx Hy.
  destruct x as [sx|sx| |sx mx ex], y as [sy|sy| |sy my ey];
    try (destruct sx, sy); cbn [SFsub]; auto.
  all: now apply binary_normalize_valid.
Qed.

Lemma Zdigits2_ge m k : 0 <= k -> 2 ^ k <= m -> k + 1 <= Zdigits2 m.
Proof.
  intros Hk Hm. assert (Hp : 0 < 2 ^ k) by (apply Z.pow_pos_nonneg; lia).
  pose proof (Zdigits2_bounds m ltac:(lia)) as [_ Hhi].
  pose proof (Zdigits2_nonneg m).
  assert (2 ^ k < 2 ^ Zdigits2 m) by lia.
  apply Z.pow_lt_mono_r_iff in H0; lia.
Qed.

Lemma Zdigits2_lt m k : 0 <= m -> 0 <= k -> m < 2 ^ k -> Zdigits2 m <= k.
Proof.
  intros Hm Hk Hlt. destruct (Z.eq_dec m 0) as [->|]; [simpl; lia|].
  pose proof (Zdigits2_bounds m ltac:(lia)) as [Hlo _].
  pose proof (Zdigits2_pos m ltac:(lia)).
  assert (2 ^ (Zdigits2 m - 1) < 2 ^ k) by lia.
  apply Z.pow_lt_mono_r_iff in H0; lia.
Qed.

Lemma Zdigits2_mul_pow2 m s :
  0 < m -> 0 <= s -> Zdigits2 (m * 2 ^ s) = Zdigits2 m + s.
Proof.
  intros Hm Hs. pose proof (Zdigits2_bounds m Hm) as [Hlo Hhi].
  pose proof (Zdigits2_pos m Hm).
  assert (Hp : 0 < 2 ^ s) by (apply Z.pow_pos_nonneg; lia).
  apply Zdigits2_unique; [nia|].
  replace (Zdigits2 m + s - 1) with (Zdigits2 m - 1 + s) by lia.
  rewrite !Z.pow_add_r by lia. nia.
Qed.

Lemma Zdigits2_mul m n :
  0 < m -> 0 < n -> Zdigits2 m + Zdigits2 n - 1 <= Zdigits2 (m * n).
Proof.
  intros Hm Hn.
  pose proof (Zdigits2_bounds m Hm) as [Hlo _].
  pose proof (Zdigits2_bounds n Hn) as [Hlo' _].
  pose proof (Zdigits2_pos m Hm). pose proof (Zdigits2_pos n Hn).
  assert (0 < 2 ^ (Zdigits2 m - 1)) by (apply Z.pow_pos_nonneg; lia).
  assert (0 < 2 ^ (Zdigits2 n - 1)) by (apply Z.pow_pos_nonneg; lia).
  assert (Hk : 2 ^ (Zdigits2 m - 1 + (Zdigits2 n - 1)) <= m * n).
  { rewrite Z.pow_add_r by lia. nia. }
  apply Zdigits2_ge in Hk; lia.
Qed.

Lemma bounded_inv m e :
  bounded prec emax m e = true ->
  fexp prec emax (Zdigits2 (Zpos m) + e) = e /\ e <= emax - prec.
Proof.
  unfold bounded, canonical_mantissa. intros H.
  apply andb_prop in H. destruct H as [H1 H2].
  apply Z.eqb_eq in H1. apply Z.leb_le in H2. auto.
Qed.

Lemma SFmul_valid x y :
  0 < prec -> emin prec emax <= 0 ->
  valid_binary prec emax x = true -> valid_binary prec emax y = true ->
  valid_binary prec emax (SFmul prec emax x y) = true.
Proof.
  intros Hprec Hemin Hx Hy.
  destruct x as [sx|sx| |sx mx ex], y as [sy|sy| |sy my ey]; cbn [SFmul]; auto.
  cbn [valid_binary] in Hx, Hy.
  apply bounded_inv in Hx, Hy. destruct Hx as [Hx _], Hy as [Hy _].
  apply binary_round_aux_valid; [assumption|lia|].
  pose proof (Zdigits2_mul (Zpos mx) (Zpos my) ltac:(lia) ltac:(lia)) as Hd.
  pose proof (Zdigits2_pos (Zpos mx) ltac:(lia)).
  pose proof (Zdigits2_pos (Zpos my) ltac:(lia)).
  change (Z.pos (mx * my)) with (Z.pos mx * Z.pos my).
  unfold fexp in *. lia.
Qed.

(** The quotient and exponent that a division hands to the rounding. *)
Lemma SFdiv_core_spec m1 e1 m2 e2 q e' l :
  0 < m1 -> 0 < m2 ->
  SFdiv_core_binary prec emax m1 e1 m2 e2 = (q, e', l) ->
  let X := Zdigits2 m1 + e1 - (Zdigits2 m2 + e2) in
  0 <= q
  /\ e' <= fexp prec emax X
  /\ X <= Zdigits2 q + e'
  /\ (0 < q -> Zdigits2 q + e' <= X + 1).
Proof.
  intros Hm1 Hm2. unfold SFdiv_core_binary.
  set (X := Zdigits2 m1 + e1 - (Zdigits2 m2 + e2)).
  set (e0 := Z.min (fexp prec emax X) (e1 - e2)).
  set (s := e1 - e2 - e0).
  assert (Hs : 0 <= s) by (unfold s, e0; lia).
  set (m' := match s with Z.pos _ => Z.shiftl m1 s | Z0 => m1 | Z.neg _ => 0 end).
  assert (Hm' : m' = m1 * 2 ^ s).
  { unfold m'. destruct s as [|p|p] eqn:Es; [simpl; lia| |lia].
    now rewrite Z.shiftl_mul_pow2 by lia. }
  assert (Hq : fst (Z.div_eucl m' m2) = m' / m2) by reflexivity.
  destruct (Z.div_eucl m' m2) as [q0 r0]. cbn [fst] in Hq.
  intros [= <- <- _]. cbv zeta.
  assert (Hp : 0 < 2 ^ s) by (apply Z.pow_pos_nonneg; lia).
  assert (Hm'pos : 0 < m') by nia.
  pose proof (Zdigits2_mul_pow2 m1 s Hm1 Hs) as Hda. rewrite <- Hm' in Hda.
  pose proof (Zdigits2_bounds m' Hm'pos) as [Halo Hahi].
  pose proof (Zdigits2_bounds m2 Hm2) as [Hblo Hbhi].
  pose proof (Zdigits2_pos m1 Hm1) as Hd1.
  pose proof (Zdigits2_pos m2 Hm2) as Hd2.
  set (a := Zdigits2 m') in *. set (b := Zdigits2 m2) in *.
  assert (Hq0 : 0 <= q0) by (subst q0; apply Z.div_pos; lia).
  assert (Hdm : m2 * q0 <= m' < m2 * (q0 + 1)).
  { subst q0. pose proof (Z.mul_div_le m' m2 Hm2).
    pose proof (Z.mul_succ_div_gt m' m2 Hm2). lia. }
  assert (Hpb : 0 < 2 ^ (b - 1)) by (apply Z.pow_pos_nonneg; lia).
  split; [assumption|]. split; [unfold e0; lia|]. split.
  - (* lower bound on the digits of the quotient *)
    assert (a - b <= Zdigits2 q0); [|unfold s in *; lia].
    destruct (Z.le_gt_cases (a - b) 0) as [Hle|Hgt].
    { pose proof (Zdigits2_nonneg q0). lia. }
    assert (Hk : 2 ^ (a - 1 - b) <= q0).
    { assert (2 ^ (a - 1 - b) * 2 ^ b = 2 ^ (a - 1)).
      { rewrite <- Z.pow_add_r by lia. f_equal. lia. }
      assert (0 < 2 ^ (a - 1 - b)) by (apply Z.pow_pos_nonneg; lia).
      assert (0 < 2 ^ b) by (apply Z.pow_pos_nonneg; lia).
      nia. }
    apply Zdigits2_ge in Hk; lia.
  - (* upper bound *)
    intros Hqpos.
    assert (Zdigits2 q0 <= a - b + 1); [|unfold s in *; lia].
    assert (Hab : 0 <= a - b + 1).
    { destruct (Z.le_gt_cases 0 (a - b + 1)) as [|Hneg]; [assumption|exfalso].
      assert (2 ^ a <= 2 ^ (b - 1)) by (apply Z.pow_le_mono_r; lia).
      nia. }
    apply Zdigits2_lt; [lia|assumption|].
    assert (2 ^ (a - b + 1) * 2 ^ (b - 1) = 2 ^ a).
    { rewrite <- Z.pow_add_r by lia. f_equal. lia. }
    assert (0 < 2 ^ (a - b + 1)) by (apply Z.pow_pos_nonneg; lia).
    nia.
Qed.

Lemma SFdiv_valid x y :
  0 < prec -> valid_binary prec emax x = true -> valid_binary prec emax y = true ->
  valid_binary prec emax (SFdiv prec emax x y) = true.
Proof.
  intros Hprec Hx Hy.
  destruct x as [sx|sx| |sx mx ex], y as [sy|sy| |sy my ey]; cbn [SFdiv]; auto.
  destruct (SFdiv_core_binary prec emax (Z.pos mx) ex (Z.pos my) ey)
    as [[q e'] l] eqn:E.
  apply SFdiv_core_spec in E; [|lia|lia]. cbv zeta in E.
  destruct E as (Hq & He & Hlo & _).
  apply binary_round_aux_valid; [assumption|assumption|].
  eapply Z.le_trans; [exact He|]. now apply fexp_mono.
Qed.

(** *** Halving does not reach NumericInterval from below *)

(** Dividing a valid number by one of magnitude at least 2 gives a zero
    or a number whose exponent is not greater. *)
Lemma SFdiv_exponent_le sw mw ew sy my ey :
  0 < prec ->
  bounded prec emax mw ew = true ->
  2 <= Zdigits2 (Zpos my) + ey ->
  (exists s, SFdiv prec emax (S754_finite sw mw ew) (S754_finite sy my ey)
        = S754_zero s)
  \/ (exists s m e, SFdiv prec emax (S754_finite sw mw ew) (S754_finite sy my ey)
                = S754_finite s m e /\ e <= ew).
Proof.
  intros Hprec Hw Hy. apply bounded_inv in Hw. destruct Hw as [Hcan Hmax].
  cbn [SFdiv].
  destruct (SFdiv_core_binary prec emax (Z.pos mw) ew (Z.pos my) ey)
    as [[q e'] l] eqn:E.
  apply SFdiv_core_spec in E; [|lia|lia]. cbv zeta in E.
  destruct E as (Hq & He & Hlo & Hhi).
  pose proof (Zdigits2_pos (Zpos mw) ltac:(lia)) as Hdw.
  assert (Hbound : Z.max e' (fexp prec emax (Zdigits2 q + e' + 1)) <= ew).
  { destruct (Z.eq_dec q 0) as [->|Hne].
    - simpl Zdigits2 in *. unfold fexp in *. lia.
    - specialize (Hhi ltac:(lia)). unfold fexp in *. lia. }
  destruct (binary_round_aux_cases (xorb sw sy) q e' l Hprec Hq)
    as [-> | [(e & -> & H1 & H2) | (m & e & -> & H1 & _)]].
  - left. eauto.
  - lia.
  - right. exists (xorb sw sy), m, e. split; [reflexivity|lia].
Qed.

Lemma halving_stays_below (w : Real) :
  Lobatto_format_ok = true -> valid w = true ->
  SFltb (abs w) numeric_interval = true ->
  SFltb (abs (SFdiv prec emax w (of_Z 2))) numeric_interval = true.
Proof.
  unfold Lobatto_format_ok, valid. intros Hok Hw Hlt.
  apply andb_prop in Hok. destruct Hok as [Hok Hni].
  apply andb_prop in Hok. destruct Hok as [Hok H2].
  apply andb_prop in Hok. destruct Hok as [Hok _].
  apply andb_prop in Hok. destruct Hok as [Hok _].
  apply andb_prop in Hok. destruct Hok as [Hok _].
  apply Z.ltb_lt in Hok.
  revert H2. destruct (of_Z 2) as [| | |s2 m2 e2]; try discriminate. intros H2.
  apply Z.leb_le in H2.
  revert Hni Hlt. destruct numeric_interval as [| | |[] mi ei]; try discriminate.
  intros Hni Hlt.
  apply andb_prop in Hni. destruct Hni as [Hei Hmi].
  apply Z.ltb_lt in Hei. apply Z.leb_le in Hmi.
  destruct w as [sw|sw| |sw mw ew]; try discriminate.
  - destruct sw; exact Hlt.
  - cbn [valid_binary] in Hw.
    assert (Hew : ew < ei).
    { unfold abs, SFabs, SFltb, SFcompare in Hlt.
      destruct (ew ?= ei) eqn:Ec; try discriminate.
      - apply Z.compare_eq in Ec. subst ei. exfalso.
        change (Pos.compare_cont Eq mw mi) with (mw ?= mi)%positive in Hlt.
        destruct (mw ?= mi)%positive eqn:Em; try discriminate.
        assert (Hmw : Z.pos mw < Z.pos mi) by exact Em.
        apply bounded_inv in Hw. destruct Hw as [Hcan _].
        assert (Hd : Zdigits2 (Zpos mw) = prec) by (unfold fexp in Hcan; lia).
        pose proof (Zdigits2_bounds (Zpos mw) ltac:(lia)) as [Hlo _].
        rewrite Hd in Hlo. lia.
      - now apply Z.compare_lt_iff in Ec. }
    destruct (SFdiv_exponent_le sw mw ew s2 m2 e2 Hok Hw H2)
      as [(s & ->) | (s & m & e & -> & He)].
    + reflexivity.
    + unfold abs, SFabs, SFltb, SFcompare.
      assert (Ec : (e ?= ei) = Lt) by (apply Z.compare_lt_iff; lia).
      now rewrite Ec.
Qed.

(** *** The sample points of Lobatto are valid numbers *)

Lemma Lobatto_format_ok_inv :
  Lobatto_format_ok = true ->
  0 < prec /\ emin prec emax <= 0
  /\ valid Lobatto.node_lobatto = true /\ valid Lobatto.node_kronrod = true.
Proof.
  unfold Lobatto_format_ok. intros Hok.
  apply andb_prop in Hok. destruct Hok as [Hok _].
  apply andb_prop in Hok. destruct Hok as [Hok _].
  apply andb_prop in Hok. destruct Hok as [Hok Hnk].
  apply andb_prop in Hok. destruct Hok as [Hok Hnl].
  apply andb_prop in Hok. destruct Hok as [Hprec Hemin].
  apply Z.ltb_lt in Hprec. apply Z.leb_le in Hemin. auto.
Qed.

Lemma Lobatto_nodes_valid f s e :
  Lobatto_format_ok = true ->
  valid (Lobatto.x s) = true -> valid (Lobatto.x e) = true ->
  valid (Lobatto.x (Lobatto_p2 f s e)) = true
  /\ valid (Lobatto.x (Lobatto_p3 f s e)) = true
  /\ valid (Lobatto.x (Lobatto_p4 f s e)) = true
  /\ valid (Lobatto.x (Lobatto_p5 f s e)) = true
  /\ valid (Lobatto.x (Lobatto_p6 f s e)) = true.
Proof.
  intros Hok Hs He.
  destruct (Lobatto_format_ok_inv Hok) as (Hprec & Hemin & Hnl & Hnk).
  unfold valid in *.
  assert (H2 : valid_binary prec emax (of_Z 2) = true)
    by now apply binary_normalize_valid.
  assert (Hh : valid_binary prec emax (Lobatto_h s e) = true).
  { unfold Lobatto_h. apply SFdiv_valid; auto. now apply SFsub_valid. }
  assert (Hm : valid_binary prec emax (Lobatto_mid s e) = true).
  { unfold Lobatto_mid. apply SFdiv_valid; auto. now apply SFadd_valid. }
  unfold Lobatto_p2, Lobatto_p3, Lobatto_p4, Lobatto_p5, Lobatto_p6.
  cbn [Lobatto.x].
  repeat split; auto using SFadd_valid, SFsub_valid, SFmul_valid.
Qed.

Lemma Lobatto_step_width f md eps s e depth v t :
  Lobatto_format_ok = true ->
  Lobatto_step f md eps s e depth v t ->
  valid (Lobatto.x s) = true -> valid (Lobatto.x e) = true ->
  forall sx ex d, In (Recurse sx ex d) t ->
    SFltb (abs (SFsub prec emax ex sx)) numeric_interval = false.
Proof.
  intros Hok. induction 1; intros Hs He sx ex d Hin.
  1-3: unfold Lobatto_node_samples in Hin; simpl in Hin;
    repeat (destruct Hin as [Hin|Hin]; [discriminate|]); destruct Hin.
  destruct (Lobatto_nodes_valid f s e Hok Hs He) as (V2 & V3 & V4 & V5 & V6).
  unfold Lobatto_node_samples in Hin. cbn [app In] in Hin.
  repeat (destruct Hin as [Hin|Hin]; [discriminate|]).
  destruct Hin as [Hin|Hin].
  - injection Hin as <- <- <-.
    destruct (SFltb (abs (SFsub prec emax (Lobatto.x e) (Lobatto.x s)))
                numeric_interval) eqn:Hw; [exfalso|reflexivity].
    apply halving_stays_below in Hw; auto.
    + match goal with H : Lobatto_final _ _ _ _ = false |- _ =>
        unfold Lobatto_final, Lobatto_h in H; apply orb_false_elim in H;
        destruct H as [H _]; congruence end.
    + destruct (Lobatto_format_ok_inv Hok) as (Hprec & _).
      unfold valid in *. now apply SFsub_valid.
  - repeat (apply in_app_or in Hin; destruct Hin as [Hin|Hin]); eauto.
Qed.
End FloatFacts.

(** ** Proofs about the integrators *)

Section Proofs.
Context {fmt : Format}.
Local Open Scope real_scope.

Lemma uint8_small n : (n < 256)%N -> uint8 n = n.
Proof. intros. unfold uint8. now apply N.mod_small. Qed.

Lemma bind_Some A B (a : A) t (k : A -> Run B) :
  bind (Some (a, t)) k = prefix t (k a).
Proof. reflexivity. Qed.

Lemma bind_call B f x (k : Real -> Run B) :
  bind (call f x) k = prefix [Sample x] (k (f x)).
Proof. reflexivity. Qed.

Lemma prefix_ret A t (a : A) : prefix t (ret a) = Some (a, t).
Proof. unfold prefix, ret. now rewrite app_nil_r. Qed.

Lemma prefix_Some A t (a : A) t' : prefix t (Some (a, t')) = Some (a, t ++ t').
Proof. reflexivity. Qed.

Lemma prefix_prefix A t1 t2 (m : Run A) :
  prefix t1 (prefix t2 m) = prefix (t1 ++ t2) m.
Proof. destruct m as [[a t]|]; simpl; [now rewrite app_assoc|reflexivity]. Qed.

Lemma bind_Simpson_evaluate B f s e (k : Simpson.Data -> Run B) :
  bind (Simpson.evaluate f s e) k
  = prefix [Sample ((Simpson.x s + Simpson.x e) / of_Z 2)] (k (Simpson_estimate f s e)).
Proof.
  unfold Simpson.evaluate, call, ret, bind, prefix, Simpson_estimate. cbn.
  destruct (k _) as [[b t]|]; reflexivity.
Qed.

(** The body of the recursion, in terms of the named quantities. *)
Lemma Simpson_body_unfold md meta f start middle end_ eps depth :
  Simpson.recursive_body md meta f start middle end_ eps depth
  = if Simpson_stops start end_ eps then ret (Simpson.area middle)
    else prefix (Simpson_quarter_samples start middle end_)
           (if negb (Simpson_samples_finite f start middle end_) then ret NaN
            else if abs (Simpson_error f start middle end_) <? eps
            then ret (Simpson_corrected f start middle end_)
            else if (md <? uint8 (depth + 1))%N
            then ret (Simpson_corrected f start middle end_)
            else prefix [Recurse (Simpson.x start) (Simpson.x end_) (uint8 (depth + 1))]
              (l <- meta f start (Simpson_estimate f start middle)
                      middle (eps / of_Z 2) (uint8 (depth + 1)) ;;
               r <- meta f middle (Simpson_estimate f middle end_)
                      end_ (eps / of_Z 2) (uint8 (depth + 1)) ;;
               ret (l + r))).
Proof.
  unfold Simpson.recursive_body.
  fold (Simpson_stops start end_ eps).
  destruct (Simpson_stops start end_ eps); [reflexivity|].
  rewrite bind_Simpson_evaluate, bind_Simpson_evaluate, prefix_prefix.
  unfold Simpson_samples_finite. rewrite negb_andb.
  reflexivity.
Qed.

(** One unfolding of the recursion. *)
Lemma Simpson_recursive_S fuel md f start middle end_ eps depth :
  Simpson.recursive (S fuel) md f start middle end_ eps depth
  = if Simpson_stops start end_ eps then ret (Simpson.area middle)
    else prefix (Simpson_quarter_samples start middle end_)
           (if negb (Simpson_samples_finite f start middle end_) then ret NaN
            else if abs (Simpson_error f start middle end_) <? eps
            then ret (Simpson_corrected f start middle end_)
            else if (md <? uint8 (depth + 1))%N
            then ret (Simpson_corrected f start middle end_)
            else prefix [Recurse (Simpson.x start) (Simpson.x end_) (uint8 (depth + 1))]
              (l <- Simpson.recursive fuel md f start (Simpson_estimate f start middle)
                      middle (eps / of_Z 2) (uint8 (depth + 1)) ;;
               r <- Simpson.recursive fuel md f middle (Simpson_estimate f middle end_)
                      end_ (eps / of_Z 2) (uint8 (depth + 1)) ;;
               ret (l + r))).
Proof. cbn [Simpson.recursive]. apply Simpson_body_unfold. Qed.

Lemma Simpson_step_functional f md start middle end_ eps depth v t :
  Simpson_step f md start middle end_ eps depth v t ->
  forall v' t', Simpson_step f md start middle end_ eps depth v' t' ->
           v' = v /\ t' = t.
Proof.
  induction 1; intros v' t' Hv'; inversion Hv'; subst; try congruence; auto.
  match goal with
  | Hl : Simpson_step _ _ start _ middle _ _ ?l' ?tl',
    Hr : Simpson_step _ _ middle _ end_ _ _ ?r' ?tr' |- _ =>
      destruct (IHSimpson_step1 _ _ Hl) as [-> ->];
      destruct (IHSimpson_step2 _ _ Hr) as [-> ->]
  end.
  auto.
Qed.

Lemma Simpson_recursive_sound f md fuel :
  (md < 255)%N ->
  forall start middle end_ eps depth,
    (depth <= md)%N -> (N.to_nat (md - depth) < fuel)%nat ->
    exists v t, Simpson.recursive fuel md f start middle end_ eps depth = Some (v, t)
           /\ Simpson_step f md start middle end_ eps depth v t.
Proof.
  intros Hmd. induction fuel as [|fuel IH]; intros start middle end_ eps depth Hd Hf.
  - lia.
  - rewrite Simpson_recursive_S.
    destruct (Simpson_stops start end_ eps) eqn:Hstop.
    { eexists _, _. split; [reflexivity|]. now apply step_stop. }
    destruct (Simpson_samples_finite f start middle end_) eqn:Hfin; cbn [negb].
    2:{ rewrite prefix_ret. eexists _, _. split; [reflexivity|]. now apply step_poisoned. }
    destruct (abs (Simpson_error f start middle end_) <? eps) eqn:Herr.
    { rewrite prefix_ret. eexists _, _. split; [reflexivity|]. apply step_accept; auto.
      unfold Simpson_accepts. now rewrite Herr. }
    rewrite uint8_small by lia.
    destruct (md <? depth + 1)%N eqn:Hdep.
    { rewrite prefix_ret. eexists _, _. split; [reflexivity|]. apply step_accept; auto.
      unfold Simpson_accepts. now rewrite Herr, Hdep. }
    pose proof Hdep as Hdep'. apply N.ltb_ge in Hdep'.
    destruct (IH start (Simpson_estimate f start middle) middle (eps / of_Z 2) (depth + 1)%N)
      as (l & tl & El & Sl); [lia|lia|].
    destruct (IH middle (Simpson_estimate f middle end_) end_ (eps / of_Z 2) (depth + 1)%N)
      as (r & tr & Er & Sr); [lia|lia|].
    rewrite El, Er, !bind_Some, prefix_ret, !prefix_Some.
    eexists _, _. split; [reflexivity|].
    cbn [app].
    apply step_recurse; auto.
    unfold Simpson_accepts. now rewrite Herr, Hdep.
Qed.

(** The body of the Lobatto recursion, in terms of the named quantities. *)
Lemma Lobatto_body_unfold md eps meta f s e depth :
  Lobatto.recursive_body md eps meta f s e depth
  = prefix (Lobatto_node_samples f s e)
      (if negb (isfinite (Lobatto_kronrod f s e)) then ret NaN
       else if abs (Lobatto_h s e) <? numeric_interval
       then ret (Lobatto_kronrod f s e)
       else if (md <? uint8 (depth + 1))%N
       then ret (Lobatto_kronrod f s e)
       else if Lobatto_converged eps f s e
       then ret (Lobatto_kronrod f s e)
       else prefix [Recurse (Lobatto.x s) (Lobatto.x e) (uint8 (depth + 1))]
         (r1 <- meta f s (Lobatto_p2 f s e) (uint8 (depth + 1)) ;;
          r2 <- meta f (Lobatto_p2 f s e) (Lobatto_p3 f s e) (uint8 (depth + 1)) ;;
          r3 <- meta f (Lobatto_p3 f s e) (Lobatto_p4 f s e) (uint8 (depth + 1)) ;;
          r4 <- meta f (Lobatto_p4 f s e) (Lobatto_p5 f s e) (uint8 (depth + 1)) ;;
          r5 <- meta f (Lobatto_p5 f s e) (Lobatto_p6 f s e) (uint8 (depth + 1)) ;;
          r6 <- meta f (Lobatto_p6 f s e) e (uint8 (depth + 1)) ;;
          ret (r1 + r2 + r3 + r4 + r5 + r6))).
Proof.
  unfold Lobatto.recursive_body.
  rewrite !bind_call. cbv beta zeta. rewrite !prefix_prefix.
  unfold Lobatto_converged, Lobatto_lobatto, Lobatto_kronrod, Lobatto_sum7,
    Lobatto_node_samples, Lobatto_p2, Lobatto_p3, Lobatto_p4, Lobatto_p5,
    Lobatto_p6, Lobatto_mid, Lobatto_h, Lobatto.set_y.
  cbn [Lobatto.x Lobatto.y app].
  reflexivity.
Qed.

(** One unfolding of the Lobatto recursion. *)
Lemma Lobatto_recursive_S fuel md eps f s e depth :
  Lobatto.recursive (S fuel) md eps f s e depth
  = prefix (Lobatto_node_samples f s e)
      (if negb (isfinite (Lobatto_kronrod f s e)) then ret NaN
       else if abs (Lobatto_h s e) <? numeric_interval
       then ret (Lobatto_kronrod f s e)
       else if (md <? uint8 (depth + 1))%N
       then ret (Lobatto_kronrod f s e)
       else if Lobatto_converged eps f s e
       then ret (Lobatto_kronrod f s e)
       else prefix [Recurse (Lobatto.x s) (Lobatto.x e) (uint8 (depth + 1))]
         (r1 <- Lobatto.recursive fuel md eps f s (Lobatto_p2 f s e) (uint8 (depth + 1)) ;;
          r2 <- Lobatto.recursive fuel md eps f (Lobatto_p2 f s e) (Lobatto_p3 f s e) (uint8 (depth + 1)) ;;
          r3 <- Lobatto.recursive fuel md eps f (Lobatto_p3 f s e) (Lobatto_p4 f s e) (uint8 (depth + 1)) ;;
          r4 <- Lobatto.recursive fuel md eps f (Lobatto_p4 f s e) (Lobatto_p5 f s e) (uint8 (depth + 1)) ;;
          r5 <- Lobatto.recursive fuel md eps f (Lobatto_p5 f s e) (Lobatto_p6 f s e) (uint8 (depth + 1)) ;;
          r6 <- Lobatto.recursive fuel md eps f (Lobatto_p6 f s e) e (uint8 (depth + 1)) ;;
          ret (r1 + r2 + r3 + r4 + r5 + r6))).
Proof. cbn [Lobatto.recursive]. apply Lobatto_body_unfold. Qed.

Lemma Lobatto_step_functional f md eps s e depth v t :
  Lobatto_step f md eps s e depth v t ->
  forall v' t', Lobatto_step f md eps s e depth v' t' -> v' = v /\ t' = t.
Proof.
  induction 1; intros v' t' Hv'; inversion Hv'; subst; try congruence; auto.
  repeat match goal with
  | IH : forall v' t', Lobatto_step f md eps ?a ?b ?d v' t' -> _,
    H : Lobatto_step f md eps ?a ?b ?d _ _ |- _ =>
      destruct (IH _ _ H) as [-> ->]; clear IH
  end.
  auto.
Qed.

Lemma Lobatto_recursive_sound f md eps fuel :
  (md < 255)%N ->
  forall s e depth,
    (depth <= md)%N -> (N.to_nat (md - depth) < fuel)%nat ->
    exists v t, Lobatto.recursive fuel md eps f s e depth = Some (v, t)
           /\ Lobatto_step f md eps s e depth v t.
Proof.
  intros Hmd. induction fuel as [|fuel IH]; intros s e depth Hd Hf.
  - lia.
  - rewrite Lobatto_recursive_S.
    destruct (isfinite (Lobatto_kronrod f s e)) eqn:Hfin; cbn [negb].
    2:{ rewrite prefix_ret. eexists _, _. split; [reflexivity|]. now apply lstep_poisoned. }
    destruct (abs (Lobatto_h s e) <? numeric_interval) eqn:Hh.
    { rewrite prefix_ret. eexists _, _. split; [reflexivity|]. apply lstep_final; auto.
      unfold Lobatto_final. now rewrite Hh. }
    rewrite uint8_small by lia.
    destruct (md <? depth + 1)%N eqn:Hdep.
    { rewrite prefix_ret. eexists _, _. split; [reflexivity|]. apply lstep_final; auto.
      unfold Lobatto_final. now rewrite Hh, Hdep. }
    assert (Hfinal : Lobatto_final md s e depth = false).
    { unfold Lobatto_final. now rewrite Hh, Hdep. }
    apply N.ltb_ge in Hdep.
    destruct (Lobatto_converged eps f s e) eqn:Hconv.
    { rewrite prefix_ret. eexists _, _. split; [reflexivity|]. now apply lstep_converged. }
    destruct (IH s (Lobatto_p2 f s e) (depth + 1)%N) as (r1 & t1 & E1 & S1); [lia|lia|].
    destruct (IH (Lobatto_p2 f s e) (Lobatto_p3 f s e) (depth + 1)%N) as (r2 & t2 & E2 & S2); [lia|lia|].
    destruct (IH (Lobatto_p3 f s e) (Lobatto_p4 f s e) (depth + 1)%N) as (r3 & t3 & E3 & S3); [lia|lia|].
    destruct (IH (Lobatto_p4 f s e) (Lobatto_p5 f s e) (depth + 1)%N) as (r4 & t4 & E4 & S4); [lia|lia|].
    destruct (IH (Lobatto_p5 f s e) (Lobatto_p6 f s e) (depth + 1)%N) as (r5 & t5 & E5 & S5); [lia|lia|].
    destruct (IH (Lobatto_p6 f s e) e (depth + 1)%N) as (r6 & t6 & E6 & S6); [lia|lia|].
    rewrite E1, E2, E3, E4, E5, E6, !bind_Some, prefix_ret, !prefix_Some.
    eexists _, _. split; [reflexivity|].
    cbn [app].
    now apply lstep_recurse.
Qed.

(** *** Facts about the floating-point operations *)

Lemma SFcompare_antisym (a b : Real) :
  SFcompare b a = option_map CompOpp (SFcompare a b).
Proof.
  destruct a as [sa|sa| |sa ma ea], b as [sb|sb| |sb mb eb]; simpl;
    try reflexivity; try (destruct sa; reflexivity); try (destruct sb; reflexivity);
    try (destruct sa, sb; reflexivity).
  rewrite (Z.compare_antisym ea eb).
  change (Pos.compare_cont Eq mb ma) with (Pos.compare mb ma).
  change (Pos.compare_cont Eq ma mb) with (Pos.compare ma mb).
  rewrite (Pos.compare_antisym ma mb).
  destruct sa, sb; simpl; try reflexivity;
    destruct (ea ?= eb)%Z; simpl; try reflexivity;
    destruct (ma ?= mb)%positive; reflexivity.
Qed.

Lemma SFltb_asym (a b : Real) : (a <? b) = true -> (b <? a) = false.
Proof.
  unfold SFltb. rewrite (SFcompare_antisym a b).
  destruct (SFcompare a b) as [[]|]; simpl; congruence.
Qed.

Lemma SFltb_irrefl (a : Real) : (a <? a) = false.
Proof.
  destruct (a <? a) eqn:E; [|reflexivity].
  now rewrite (SFltb_asym _ _ E) in E.
Qed.

(** *** The top-level calls unfolded *)

Lemma Simpson_unfold f a b eps md :
  Simpson.Simpson f a b eps md
  = prefix [Sample (Simpson.x (Simpson_start f a b));
            Sample (Simpson.x (Simpson_end f a b));
            Sample (Simpson.x (Simpson_middle f a b))]
      (if negb (isfinite (Simpson.y (Simpson_start f a b)))
          || negb (isfinite (Simpson.y (Simpson_end f a b)))
          || negb (isfinite (Simpson.y (Simpson_middle f a b)))
       then ret NaN
       else Simpson.recursive (S (N.to_nat (N.min md 22))) (N.min md 22) f
              (Simpson_start f a b) (Simpson_middle f a b) (Simpson_end f a b)
              (max eps Simpson_floor) 0).
Proof.
  unfold Simpson.Simpson, Simpson_middle, Simpson_start, Simpson_end, ordered.
  destruct (b <? a); cbv zeta iota beta;
    rewrite !bind_call, bind_Simpson_evaluate, !prefix_prefix; reflexivity.
Qed.

Lemma Lobatto_unfold f a b eps md :
  Lobatto.Lobatto f a b eps md
  = prefix [Sample (Lobatto.x (Lobatto_start f a b));
            Sample (Lobatto.x (Lobatto_end f a b))]
      (if negb (isfinite (Lobatto.y (Lobatto_start f a b)))
          || negb (isfinite (Lobatto.y (Lobatto_end f a b)))
       then ret NaN
       else Lobatto.recursive (S (N.to_nat (N.min md 8))) (N.min md 8)
              (max eps numeric_epsilon) f
              (Lobatto_start f a b) (Lobatto_end f a b) 0).
Proof.
  unfold Lobatto.Lobatto, Lobatto_start, Lobatto_end, ordered.
  destruct (b <? a); cbv zeta iota beta;
    rewrite !bind_call, !prefix_prefix; reflexivity.
Qed.

(** C1 (amended). The Simpson recursive step computes exactly what
    [Simpson_step] describes: it returns M when the remaining epsilon is
    below machine epsilon or the width is below NumericInterval; otherwise
    it takes one new sample in each half, returns NaN when one of the two
    is not finite, returns L + R + (L + R - M) / 15 when the absolute
    error is below epsilon or the depth budget is exhausted, and otherwise
    returns the sum of the two recursive calls with epsilon / 2 and
    depth + 1.  The result exists and is the only one. *)
Theorem Simpson_recursive_step f md fuel start middle end_ eps depth :
  (md < 255)%N -> (depth <= md)%N -> (N.to_nat (md - depth) < fuel)%nat ->
  exists v t,
    Simpson.recursive fuel md f start middle end_ eps depth = Some (v, t)
    /\ Simpson_step f md start middle end_ eps depth v t
    /\ forall v' t', Simpson_step f md start middle end_ eps depth v' t' ->
                v' = v /\ t' = t.
Proof.
  intros Hmd Hd Hf.
  destruct (Simpson_recursive_sound f md fuel Hmd start middle end_ eps depth Hd Hf)
    as (v & t & E & S).
  exists v, t. repeat split; auto.
  all: eapply Simpson_step_functional; eauto.
Qed.

(** C2 (amended). The Lobatto recursive step computes exactly what
    [Lobatto_step] describes: it samples the five nodes and forms the
    seven-point estimate; it returns NaN when that estimate is not finite;
    it returns the estimate when |h| is below NumericInterval or the depth
    budget is exceeded, or when it differs from the four-point estimate by
    less than epsilon; otherwise it returns the sum of the six recursive
    calls with the same epsilon and depth + 1. *)
Theorem Lobatto_recursive_step f md eps fuel s e depth :
  (md < 255)%N -> (depth <= md)%N -> (N.to_nat (md - depth) < fuel)%nat ->
  exists v t,
    Lobatto.recursive fuel md eps f s e depth = Some (v, t)
    /\ Lobatto_step f md eps s e depth v t
    /\ forall v' t', Lobatto_step f md eps s e depth v' t' -> v' = v /\ t' = t.
Proof.
  intros Hmd Hd Hf.
  destruct (Lobatto_recursive_sound f md eps fuel Hmd s e depth Hd Hf) as (v & t & E & S).
  exists v, t. repeat split; auto.
  all: eapply Lobatto_step_functional; eauto.
Qed.

(** *** Non-finite values propagate *)

Lemma isfinite_add (a b : Real) :
  isfinite (a + b) = true -> isfinite a = true /\ isfinite b = true.
Proof.
  destruct a as [sa|sa| |sa ma ea], b as [sb|sb| |sb mb eb]; simpl; auto;
    try (destruct sa, sb; simpl; auto; discriminate).
Qed.

Lemma isfinite_mul (a b : Real) :
  isfinite (a * b) = true -> isfinite a = true /\ isfinite b = true.
Proof.
  destruct a as [sa|sa| |sa ma ea], b as [sb|sb| |sb mb eb]; simpl; auto.
Qed.

Lemma add_nan_l (a : Real) : NaN + a = NaN.
Proof. reflexivity. Qed.

Lemma add_nan_r (a : Real) : a + NaN = NaN.
Proof. destruct a; reflexivity. Qed.

Lemma sub_nan_l (a : Real) : NaN - a = NaN.
Proof. reflexivity. Qed.

Lemma sub_nan_r (a : Real) : a - NaN = NaN.
Proof. destruct a; reflexivity. Qed.

(** *** Traces *)

Lemma samples_app t1 t2 : samples (t1 ++ t2) = samples t1 ++ samples t2.
Proof.
  induction t1 as [|[x|s e d] t1 IH]; simpl; [reflexivity| |assumption].
  now rewrite IH.
Qed.

Lemma evaluations_app t1 t2 :
  evaluations (t1 ++ t2) = (evaluations t1 + evaluations t2)%nat.
Proof. unfold evaluations. now rewrite samples_app, length_app. Qed.


(** *** A non-finite sample poisons a recursive step *)

Lemma poisoned_app f t1 t2 :
  poisoned f (t1 ++ t2) -> poisoned f t1 \/ poisoned f t2.
Proof.
  intros (x & Hin & Hx). rewrite samples_app in Hin.
  apply in_app_or in Hin. destruct Hin; [left|right]; exists x; auto.
Qed.

Lemma poisoned_Recurse f s e d t :
  poisoned f (Recurse s e d :: t) -> poisoned f t.
Proof. intros (x & Hin & Hx). exists x. auto. Qed.

Lemma Simpson_quarter_samples_clean f start middle end_ :
  Simpson_samples_finite f start middle end_ = true ->
  ~ poisoned f (Simpson_quarter_samples start middle end_).
Proof.
  unfold Simpson_samples_finite, Simpson_estimate. cbn [Simpson.y].
  intros H (x & Hin & Hx). apply andb_prop in H. destruct H as [H1 H2].
  unfold Simpson_quarter_samples in Hin. cbn [samples In] in Hin.
  destruct Hin as [<-|[<-|[]]]; congruence.
Qed.

Lemma Simpson_step_poisons f md start middle end_ eps depth v t :
  Simpson_step f md start middle end_ eps depth v t ->
  poisoned f t -> v = NaN.
Proof.
  induction 1; intros Hp.
  - destruct Hp as (x & [] & _).
  - reflexivity.
  - now apply Simpson_quarter_samples_clean in Hp.
  - apply poisoned_app in Hp. destruct Hp as [Hp|Hp].
    { now apply Simpson_quarter_samples_clean in Hp. }
    apply poisoned_Recurse, poisoned_app in Hp. destruct Hp as [Hp|Hp].
    + rewrite (IHSimpson_step1 Hp). apply add_nan_l.
    + rewrite (IHSimpson_step2 Hp). apply add_nan_r.
Qed.

Lemma Lobatto_node_samples_clean f s e :
  isfinite (Lobatto_kronrod f s e) = true ->
  ~ poisoned f (Lobatto_node_samples f s e).
Proof.
  unfold Lobatto_kronrod, Lobatto_sum7. intros H (x & Hin & Hx).
  apply isfinite_mul in H. destruct H as [_ H].
  apply isfinite_add in H. destruct H as [H H4].
  apply isfinite_add in H. destruct H as [H H35].
  apply isfinite_add in H. destruct H as [_ H26].
  apply isfinite_mul in H4. destruct H4 as [H4 _].
  apply isfinite_mul in H35. destruct H35 as [H35 _].
  apply isfinite_mul in H26. destruct H26 as [H26 _].
  apply isfinite_add in H35. destruct H35 as [H3 H5].
  apply isfinite_add in H26. destruct H26 as [H2 H6].
  cbn [Lobatto.y Lobatto_p2 Lobatto_p3 Lobatto_p4 Lobatto_p5 Lobatto_p6] in *.
  unfold Lobatto_node_samples in Hin. cbn [samples In Lobatto.x Lobatto_p2 Lobatto_p3 Lobatto_p4 Lobatto_p5 Lobatto_p6] in Hin.
  destruct Hin as [<-|[<-|[<-|[<-|[<-|[]]]]]]; congruence.
Qed.

Lemma Lobatto_step_poisons f md eps s e depth v t :
  Lobatto_step f md eps s e depth v t ->
  poisoned f t -> v = NaN.
Proof.
  induction 1; intros Hp.
  - reflexivity.
  - now apply Lobatto_node_samples_clean in Hp.
  - now apply Lobatto_node_samples_clean in Hp.
  - apply poisoned_app in Hp. destruct Hp as [Hp|Hp].
    { now apply Lobatto_node_samples_clean in Hp. }
    apply poisoned_Recurse in Hp.
    repeat (apply poisoned_app in Hp; destruct Hp as [Hp|Hp]);
    match goal with
    | IH : poisoned f ?t -> ?r = NaN, Hp : poisoned f ?t |- _ =>
        rewrite (IH Hp)
    end;
    rewrite ?add_nan_l, ?add_nan_r; reflexivity.
Qed.

(** *** The top-level calls characterised *)

Lemma Simpson_run f a b eps md :
  exists v t,
    Simpson.Simpson f a b eps md = Some (v, Simpson_first_samples f a b ++ t)
    /\ ((Simpson_endpoints_finite f a b = false /\ v = NaN /\ t = [])
        \/ (Simpson_endpoints_finite f a b = true
            /\ Simpson_step f (N.min md 22) (Simpson_start f a b)
                 (Simpson_middle f a b) (Simpson_end f a b)
                 (max eps Simpson_floor) 0 v t)).
Proof.
  rewrite Simpson_unfold. rewrite <- !negb_andb.
  fold (Simpson_endpoints_finite f a b) (Simpson_first_samples f a b).
  destruct (Simpson_endpoints_finite f a b); cbn [negb].
  - destruct (Simpson_recursive_sound f (N.min md 22) (S (N.to_nat (N.min md 22)))
                ltac:(lia) (Simpson_start f a b) (Simpson_middle f a b)
                (Simpson_end f a b) (max eps Simpson_floor) 0%N
                ltac:(lia) ltac:(lia)) as (v & t & E & St).
    rewrite E. exists v, t. split; [reflexivity|]. right. auto.
  - exists NaN, []. split; [reflexivity|]. left. auto.
Qed.

Lemma Lobatto_run f a b eps md :
  exists v t,
    Lobatto.Lobatto f a b eps md = Some (v, Lobatto_first_samples f a b ++ t)
    /\ ((Lobatto_endpoints_finite f a b = false /\ v = NaN /\ t = [])
        \/ (Lobatto_endpoints_finite f a b = true
            /\ Lobatto_step f (N.min md 8) (max eps numeric_epsilon)
                 (Lobatto_start f a b) (Lobatto_end f a b) 0 v t)).
Proof.
  rewrite Lobatto_unfold. rewrite <- !negb_andb.
  fold (Lobatto_endpoints_finite f a b) (Lobatto_first_samples f a b).
  destruct (Lobatto_endpoints_finite f a b); cbn [negb].
  - destruct (Lobatto_recursive_sound f (N.min md 8) (max eps numeric_epsilon)
                (S (N.to_nat (N.min md 8)))
                ltac:(lia) (Lobatto_start f a b) (Lobatto_end f a b) 0%N
                ltac:(lia) ltac:(lia)) as (v & t & E & St).
    rewrite E. exists v, t. split; [reflexivity|]. right. auto.
  - exists NaN, []. split; [reflexivity|]. left. auto.
Qed.

Lemma ordered_cases (a b : Real) :
  ordered a b = (a, b) \/ ordered a b = (b, a).
Proof. unfold ordered. destruct (b <? a); auto. Qed.

Lemma Simpson_first_samples_clean f a b :
  Simpson_endpoints_finite f a b = true ->
  ~ poisoned f (Simpson_first_samples f a b).
Proof.
  unfold Simpson_endpoints_finite. intros H (x & Hin & Hx).
  apply andb_prop in H. destruct H as [H H3].
  apply andb_prop in H. destruct H as [H1 H2].
  unfold Simpson_first_samples in Hin. cbn [samples In] in Hin.
  destruct Hin as [<-|[<-|[<-|[]]]]; 
    unfold Simpson_middle, Simpson_estimate, Simpson_start, Simpson_end in *;
    cbn [Simpson.x Simpson.y] in *; congruence.
Qed.

Lemma Lobatto_first_samples_clean f a b :
  Lobatto_endpoints_finite f a b = true ->
  ~ poisoned f (Lobatto_first_samples f a b).
Proof.
  unfold Lobatto_endpoints_finite. intros H (x & Hin & Hx).
  apply andb_prop in H. destruct H as [H1 H2].
  unfold Lobatto_first_samples in Hin. cbn [samples In] in Hin.
  destruct Hin as [<-|[<-|[]]];
    unfold Lobatto_start, Lobatto_end in *;
    cbn [Lobatto.x Lobatto.y] in *; congruence.
Qed.

Lemma bounds_sampled_Simpson f a b t :
  In a (samples (Simpson_first_samples f a b ++ t))
  /\ In b (samples (Simpson_first_samples f a b ++ t)).
Proof.
  unfold Simpson_first_samples, Simpson_start, Simpson_end.
  cbn [Simpson.x app samples]. destruct (ordered_cases a b) as [-> | ->];
    cbn [fst snd In]; auto.
Qed.

Lemma bounds_sampled_Lobatto f a b t :
  In a (samples (Lobatto_first_samples f a b ++ t))
  /\ In b (samples (Lobatto_first_samples f a b ++ t)).
Proof.
  unfold Lobatto_first_samples, Lobatto_start, Lobatto_end.
  cbn [Lobatto.x app samples]. destruct (ordered_cases a b) as [-> | ->];
    cbn [fst snd In]; auto.
Qed.

(** C3. If the integrand is not finite at [a], at [b] or at any point
    sampled during the run, the result of Simpson, and of Lobatto, is
    NaN. *)
Theorem nonfinite_sample_poisons_result f a b eps md :
  (isfinite (f a) = false \/ isfinite (f b) = false
   \/ poisoned f (trace (Simpson.Simpson f a b eps md))
   -> value (Simpson.Simpson f a b eps md) = Some NaN)
  /\ (isfinite (f a) = false \/ isfinite (f b) = false
      \/ poisoned f (trace (Lobatto.Lobatto f a b eps md))
      -> value (Lobatto.Lobatto f a b eps md) = Some NaN).
Proof.
  split.
  - destruct (Simpson_run f a b eps md) as (v & t & E & H).
    rewrite E. cbn [trace value option_map fst]. intros Hbad.
    assert (Hp : poisoned f (Simpson_first_samples f a b ++ t)).
    { destruct (bounds_sampled_Simpson f a b t) as [Ha Hb].
      destruct Hbad as [Hbad|[Hbad|Hbad]]; [exists a|exists b|]; auto. }
    destruct H as [(_ & -> & _)|(Hfin & St)]; [reflexivity|].
    apply poisoned_app in Hp. destruct Hp as [Hp|Hp].
    + now apply Simpson_first_samples_clean in Hp.
    + now rewrite (Simpson_step_poisons _ _ _ _ _ _ _ _ _ St Hp).
  - destruct (Lobatto_run f a b eps md) as (v & t & E & H).
    rewrite E. cbn [trace value option_map fst]. intros Hbad.
    assert (Hp : poisoned f (Lobatto_first_samples f a b ++ t)).
    { destruct (bounds_sampled_Lobatto f a b t) as [Ha Hb].
      destruct Hbad as [Hbad|[Hbad|Hbad]]; [exists a|exists b|]; auto. }
    destruct H as [(_ & -> & _)|(Hfin & St)]; [reflexivity|].
    apply poisoned_app in Hp. destruct Hp as [Hp|Hp].
    + now apply Lobatto_first_samples_clean in Hp.
    + now rewrite (Lobatto_step_poisons _ _ _ _ _ _ _ _ St Hp).
Qed.

(** *** Counting the evaluations *)

Lemma Simpson_not_exhausted md f start middle end_ eps depth :
  Simpson_accepts md f start middle end_ eps depth = false ->
  (depth + 1 <= md)%N.
Proof.
  unfold Simpson_accepts. intros H. apply orb_false_elim in H.
  destruct H as [_ H]. now apply N.ltb_ge in H.
Qed.

Lemma Lobatto_not_exhausted md s e depth :
  Lobatto_final md s e depth = false -> (depth + 1 <= md)%N.
Proof.
  unfold Lobatto_final. intros H. apply orb_false_elim in H.
  destruct H as [_ H]. now apply N.ltb_ge in H.
Qed.

Lemma levels_succ (md depth : N) :
  (depth + 1 <= md)%N ->
  N.to_nat (md - depth) = S (N.to_nat (md - (depth + 1))).
Proof. lia. Qed.

Lemma four_le_pow2 k : (4 <= 2 ^ (k + 2))%nat.
Proof. change 4%nat with (2 ^ 2)%nat. apply Nat.pow_le_mono_r; lia. Qed.

Lemma six_le_pow6 k : (6 <= 6 ^ (k + 1))%nat.
Proof. change 6%nat with (6 ^ 1)%nat at 1. apply Nat.pow_le_mono_r; lia. Qed.

Lemma Simpson_step_cost f md start middle end_ eps depth v t :
  Simpson_step f md start middle end_ eps depth v t ->
  (evaluations t + 2 <= 2 ^ (N.to_nat (md - depth) + 2))%nat.
Proof.
  induction 1.
  1-3: pose proof (four_le_pow2 (N.to_nat (md - depth)));
    unfold Simpson_quarter_samples; cbn [evaluations samples length]; lia.
  - rewrite (levels_succ md depth) by (eapply Simpson_not_exhausted; eauto).
    rewrite evaluations_app.
    change (Recurse (Simpson.x start) (Simpson.x end_) (depth + 1) :: tl ++ tr)
      with ([Recurse (Simpson.x start) (Simpson.x end_) (depth + 1)] ++ tl ++ tr).
    rewrite !evaluations_app.
    unfold Simpson_quarter_samples. cbn [evaluations samples length].
    fold (evaluations tl) (evaluations tr).
    cbn [Nat.add]. rewrite Nat.pow_succ_r'. lia.
Qed.

Lemma Lobatto_step_cost f md eps s e depth v t :
  Lobatto_step f md eps s e depth v t ->
  (evaluations t + 1 <= 6 ^ (N.to_nat (md - depth) + 1))%nat.
Proof.
  induction 1.
  1-3: pose proof (six_le_pow6 (N.to_nat (md - depth)));
    unfold Lobatto_node_samples; cbn [evaluations samples length]; lia.
  rewrite (levels_succ md depth) by (eapply Lobatto_not_exhausted; eauto).
  rewrite evaluations_app.
  change (Recurse (Lobatto.x s) (Lobatto.x e) (depth + 1) :: t1 ++ t2 ++ t3 ++ t4 ++ t5 ++ t6)
    with ([Recurse (Lobatto.x s) (Lobatto.x e) (depth + 1)] ++ t1 ++ t2 ++ t3 ++ t4 ++ t5 ++ t6).
  rewrite !evaluations_app.
  unfold Lobatto_node_samples. cbn [evaluations samples length].
  fold (evaluations t1) (evaluations t2) (evaluations t3)
       (evaluations t4) (evaluations t5) (evaluations t6).
  cbn [Nat.add]. rewrite Nat.pow_succ_r'. lia.
Qed.

(** C5 (amended). Simpson and Lobatto return for every integrand, bounds,
    epsilon and max_depth, and the number of integrand evaluations is at
    most [2^(D+2) + 1] for Simpson and [6^(D+1) + 1] for Lobatto, where D
    is the clamped max_depth. *)
Theorem termination_and_evaluation_bound f a b eps md :
  (exists v t, Simpson.Simpson f a b eps md = Some (v, t)
          /\ (evaluations t <= 2 ^ (N.to_nat (N.min md 22) + 2) + 1)%nat)
  /\ (exists v t, Lobatto.Lobatto f a b eps md = Some (v, t)
             /\ (evaluations t <= 6 ^ (N.to_nat (N.min md 8) + 1) + 1)%nat).
Proof.
  split.
  - destruct (Simpson_run f a b eps md) as (v & t & E & H).
    exists v, (Simpson_first_samples f a b ++ t). split; [exact E|].
    rewrite evaluations_app. unfold Simpson_first_samples.
    cbn [evaluations samples length]. fold (evaluations t).
    destruct H as [(_ & _ & ->)|(_ & St)].
    + pose proof (four_le_pow2 (N.to_nat (N.min md 22))).
      cbn [evaluations samples length]. lia.
    + apply Simpson_step_cost in St. rewrite N.sub_0_r in St. lia.
  - destruct (Lobatto_run f a b eps md) as (v & t & E & H).
    exists v, (Lobatto_first_samples f a b ++ t). split; [exact E|].
    rewrite evaluations_app. unfold Lobatto_first_samples.
    cbn [evaluations samples length]. fold (evaluations t).
    destruct H as [(_ & _ & ->)|(_ & St)].
    + pose proof (six_le_pow6 (N.to_nat (N.min md 8))).
      cbn [evaluations samples length]. lia.
    + apply Lobatto_step_cost in St. rewrite N.sub_0_r in St. lia.
Qed.

(** *** What a subdividing call knows *)

Lemma Simpson_step_invariant f md start middle end_ eps depth v t :
  Simpson_step f md start middle end_ eps depth v t ->
  forall sx ex d, In (Recurse sx ex d) t ->
    (abs (ex - sx) <? numeric_interval) = false /\ (d <= md)%N.
Proof.
  induction 1; intros sx ex d Hin.
  - destruct Hin.
  - unfold Simpson_quarter_samples in Hin. simpl in Hin.
    destruct Hin as [Hin|[Hin|[]]]; discriminate.
  - unfold Simpson_quarter_samples in Hin. simpl in Hin.
    destruct Hin as [Hin|[Hin|[]]]; discriminate.
  - unfold Simpson_quarter_samples in Hin. cbn [app In] in Hin.
    destruct Hin as [Hin|[Hin|[Hin|Hin]]]; try discriminate.
    + injection Hin as <- <- <-. split.
      * unfold Simpson_stops in *. 
        match goal with H : (_ || _)%bool = false |- _ => apply orb_false_elim in H; apply H end.
      * eapply Simpson_not_exhausted; eauto.
    + apply in_app_or in Hin. destruct Hin; eauto.
Qed.

Lemma Lobatto_step_invariant f md eps s e depth v t :
  Lobatto_step f md eps s e depth v t ->
  forall sx ex d, In (Recurse sx ex d) t ->
    (abs ((ex - sx) / of_Z 2) <? numeric_interval) = false /\ (d <= md)%N.
Proof.
  induction 1; intros sx ex d Hin.
  1-3: unfold Lobatto_node_samples in Hin; simpl in Hin;
    repeat (destruct Hin as [Hin|Hin]; [discriminate|]); destruct Hin.
  unfold Lobatto_node_samples in Hin. cbn [app In] in Hin.
  repeat (destruct Hin as [Hin|Hin]; [discriminate|]).
  destruct Hin as [Hin|Hin].
  - injection Hin as <- <- <-. split.
    + match goal with H : Lobatto_final _ _ _ _ = false |- _ =>
        unfold Lobatto_final in H; apply orb_false_elim in H; apply H end.
    + eapply Lobatto_not_exhausted; eauto.
  - repeat (apply in_app_or in Hin; destruct Hin as [Hin|Hin]); eauto.
Qed.

(** C6. Out-of-range parameters are clamped: a max_depth above 22 (8 for
    Lobatto), which as a [uint8_t] is below 256, gives the run of
    max_depth 22 (8), and an epsilon below 512 times machine epsilon
    (machine epsilon for Lobatto) gives the run of that floor. *)
Theorem parameters_are_clamped f a b eps md :
  ((22 < md)%N -> (md < 256)%N ->
   Simpson.Simpson f a b eps md = Simpson.Simpson f a b eps 22)
  /\ ((8 < md)%N -> (md < 256)%N ->
      Lobatto.Lobatto f a b eps md = Lobatto.Lobatto f a b eps 8)
  /\ ((eps <? Simpson_floor) = true ->
      Simpson.Simpson f a b eps md = Simpson.Simpson f a b Simpson_floor md)
  /\ ((eps <? numeric_epsilon) = true ->
      Lobatto.Lobatto f a b eps md = Lobatto.Lobatto f a b numeric_epsilon md).
Proof.
  split; [|split; [|split]].
  - intros H _. rewrite !Simpson_unfold.
    now rewrite (N.min_r md 22), (N.min_id 22) by lia.
  - intros H _. rewrite !Lobatto_unfold.
    now rewrite (N.min_r md 8), (N.min_id 8) by lia.
  - intros H. rewrite !Simpson_unfold. unfold max. now rewrite H, SFltb_irrefl.
  - intros H. rewrite !Lobatto_unfold. unfold max. now rewrite H, SFltb_irrefl.
Qed.

(** *** Reversed bounds *)

Lemma SFcompare_Eq_inv (a b : Real) :
  SFcompare a b = Some Eq ->
  a = b \/ (is_zero a = true /\ is_zero b = true).
Proof.
  destruct a as [sa|sa| |sa ma ea], b as [sb|sb| |sb mb eb]; simpl; auto;
    try discriminate;
    try (destruct sa; discriminate); try (destruct sb; discriminate).
  - destruct sa, sb; intros; try discriminate; auto.
  - destruct sa, sb; try discriminate;
      destruct (ea ?= eb)%Z eqn:Ee; try discriminate;
      apply Z.compare_eq in Ee; subst eb;
      change (Pos.compare_cont Eq ma mb) with (ma ?= mb)%positive;
      destruct (ma ?= mb)%positive eqn:Em; try discriminate;
      apply Pos.compare_eq in Em; subst mb; auto.
Qed.

Lemma SFcompare_None_inv (a b : Real) :
  SFcompare a b = None -> a = NaN \/ b = NaN.
Proof.
  destruct a as [sa|sa| |sa ma ea], b as [sb|sb| |sb mb eb]; simpl; auto;
    discriminate.
Qed.

Lemma unordered_bounds (a b : Real) :
  (a <? b) = false -> (b <? a) = false ->
  opposite_zeros a b = false ->
  a = b \/ a = NaN \/ b = NaN.
Proof.
  unfold SFltb. rewrite (SFcompare_antisym a b).
  destruct (SFcompare a b) as [[]|] eqn:E; simpl; try discriminate; intros _ _ Hz.
  - apply SFcompare_Eq_inv in E. destruct E as [E|[Ha Hb]]; auto.
    destruct a, b; try discriminate. simpl in Hz.
    left. f_equal. destruct s, s0; simpl in Hz; congruence.
  - apply SFcompare_None_inv in E. auto.
Qed.

Lemma Simpson_step_nan f md start middle end_ eps depth v t :
  Simpson_step f md start middle end_ eps depth v t ->
  Simpson.x middle = NaN -> Simpson.area middle = NaN -> v = NaN.
Proof.
  induction 1; intros Hx Ha.
  - exact Ha.
  - reflexivity.
  - unfold Simpson_corrected, Simpson_estimate. cbn [Simpson.area].
    rewrite Hx, sub_nan_l. reflexivity.
  - rewrite IHSimpson_step1; [reflexivity| |].
    + unfold Simpson_estimate. cbn [Simpson.x]. rewrite Hx, add_nan_r. reflexivity.
    + unfold Simpson_estimate. cbn [Simpson.area]. rewrite Hx, sub_nan_l. reflexivity.
Qed.

Lemma Lobatto_kronrod_nan f s e :
  Lobatto.x s = NaN \/ Lobatto.x e = NaN -> Lobatto_kronrod f s e = NaN.
Proof.
  unfold Lobatto_kronrod, Lobatto_h.
  intros [-> | ->]; rewrite ?sub_nan_l, ?sub_nan_r; reflexivity.
Qed.

Lemma Lobatto_step_nan f md eps s e depth v t :
  Lobatto_step f md eps s e depth v t ->
  Lobatto.x s = NaN \/ Lobatto.x e = NaN -> v = NaN.
Proof.
  intros St Hx. apply (Lobatto_kronrod_nan f) in Hx.
  inversion St; subst; try reflexivity;
    match goal with H : isfinite _ = true |- _ => rewrite Hx in H; discriminate end.
Qed.

Lemma Simpson_nan_bound f a b eps md :
  fst (ordered a b) = NaN \/ snd (ordered a b) = NaN ->
  value (Simpson.Simpson f a b eps md) = Some NaN.
Proof.
  intros Hn. destruct (Simpson_run f a b eps md) as (v & t & E & H).
  rewrite E. cbn [value option_map fst].
  destruct H as [(_ & -> & _)|(_ & St)]; [reflexivity|].
  f_equal. apply (Simpson_step_nan _ _ _ _ _ _ _ _ _ St);
    unfold Simpson_middle, Simpson_estimate, Simpson_start, Simpson_end;
    cbn [Simpson.x Simpson.area];
    destruct Hn as [-> | ->];
    rewrite ?add_nan_l, ?add_nan_r, ?sub_nan_l, ?sub_nan_r; reflexivity.
Qed.

Lemma Lobatto_nan_bound f a b eps md :
  fst (ordered a b) = NaN \/ snd (ordered a b) = NaN ->
  value (Lobatto.Lobatto f a b eps md) = Some NaN.
Proof.
  intros Hn. destruct (Lobatto_run f a b eps md) as (v & t & E & H).
  rewrite E. cbn [value option_map fst].
  destruct H as [(_ & -> & _)|(_ & St)]; [reflexivity|].
  f_equal. apply (Lobatto_step_nan _ _ _ _ _ _ _ _ St).
  exact Hn.
Qed.

Lemma ordered_nan (a b : Real) :
  a = NaN \/ b = NaN ->
  fst (ordered a b) = NaN \/ snd (ordered a b) = NaN.
Proof.
  destruct (ordered_cases a b) as [-> | ->]; cbn [fst snd]; tauto.
Qed.

(** C4 (amended). Unless [a] and [b] are zeros of opposite sign,
    Simpson(f, a, b) and Simpson(f, b, a) return the same value, and so do
    Lobatto(f, a, b) and Lobatto(f, b, a). *)
Theorem reversed_bounds_same_result f a b eps md :
  opposite_zeros a b = false ->
  value (Simpson.Simpson f a b eps md) = value (Simpson.Simpson f b a eps md)
  /\ value (Lobatto.Lobatto f a b eps md) = value (Lobatto.Lobatto f b a eps md).
Proof.
  intros Hz.
  destruct (b <? a) eqn:Eba; [|destruct (a <? b) eqn:Eab].
  - pose proof (SFltb_asym _ _ Eba) as Eab.
    unfold Simpson.Simpson, Lobatto.Lobatto. now rewrite Eba, Eab.
  - unfold Simpson.Simpson, Lobatto.Lobatto. now rewrite Eba, Eab.
  - destruct (unordered_bounds a b Eab Eba Hz) as [->|Hn]; [auto|].
    assert (Hn' : b = NaN \/ a = NaN) by tauto.
    rewrite !Simpson_nan_bound, !Lobatto_nan_bound by (apply ordered_nan; assumption).
    auto.
Qed.

(** *** The degenerate interval *)

Lemma sub_self_zero (a : Real) :
  isfinite a = true -> a - a = S754_zero false.
Proof.
  destruct a as [s|s| |s m e]; try discriminate; intros _.
  - destruct s; reflexivity.
  - unfold SFsub. now rewrite Z.sub_diag.
Qed.

Lemma sub_equal_zero (a b : Real) :
  SFeqb a b = true -> isfinite a = true -> is_zero (b - a) = true.
Proof.
  unfold SFeqb. destruct (SFcompare a b) as [[]|] eqn:E; try discriminate.
  intros _ Ha. apply SFcompare_Eq_inv in E. destruct E as [<-|[Za Zb]].
  - now rewrite sub_self_zero.
  - destruct a, b; try discriminate. destruct s, s0; reflexivity.
Qed.

Lemma eqb_not_ltb (a b : Real) : SFeqb a b = true -> (b <? a) = false.
Proof.
  unfold SFeqb, SFltb. rewrite (SFcompare_antisym a b).
  destruct (SFcompare a b) as [[]|]; simpl; congruence.
Qed.

Lemma zero_mul_finite (z x : Real) :
  is_zero z = true -> isfinite x = true -> is_zero (z * x) = true.
Proof. destruct z, x; try discriminate; reflexivity. Qed.

Lemma zero_div_literal (z x : Real) :
  is_zero z = true -> nonzero_finite x = true -> is_zero (z / x) = true.
Proof. destruct z, x; try discriminate; reflexivity. Qed.

Lemma abs_zero (z : Real) : is_zero z = true -> abs z = S754_zero false.
Proof. destruct z; try discriminate; reflexivity. Qed.

Lemma is_zero_inv (z : Real) : is_zero z = true -> exists s, z = S754_zero s.
Proof. destruct z; try discriminate. eauto. Qed.

Lemma is_zero_finite (z : Real) : is_zero z = true -> isfinite z = true.
Proof. destruct z; try discriminate; reflexivity. Qed.

Lemma literals_ok_inv :
  literals_ok = true ->
  nonzero_finite (of_Z 2) = true /\ nonzero_finite (of_Z 6) = true
  /\ nonzero_finite (of_Z 1470) = true
  /\ (S754_zero false <? numeric_interval) = true.
Proof.
  unfold literals_ok. intros H.
  repeat (apply andb_prop in H; destruct H as [H ?]). auto.
Qed.

(** C8 (amended). On a degenerate interval, [a == b] with [a] finite, the
    result is a zero whenever the weighted sum of the samples is finite:
    [f(a) + 4 f(m) + f(b)] for Simpson, the seven-point sum for Lobatto. *)
Theorem degenerate_interval_zero f a b eps md :
  literals_ok = true -> SFeqb a b = true -> isfinite a = true ->
  (isfinite (Simpson_sum3 f (Simpson_start f a b) (Simpson_end f a b)) = true ->
   exists s, value (Simpson.Simpson f a b eps md) = Some (S754_zero s))
  /\ (isfinite (Lobatto_sum7 f (Lobatto_start f a b) (Lobatto_end f a b)) = true ->
      exists s, value (Lobatto.Lobatto f a b eps md) = Some (S754_zero s)).
Proof.
  intros Hlit Heq Ha.
  destruct (literals_ok_inv Hlit) as (H2 & H6 & H1470 & Hni).
  pose proof (sub_equal_zero a b Heq Ha) as Hw.
  assert (Hord : ordered a b = (a, b)).
  { unfold ordered. now rewrite (eqb_not_ltb a b Heq). }
  split; intros Hsum.
  - destruct (Simpson_run f a b eps md) as (v & t & E & H).
    rewrite E. cbn [value option_map fst].
    assert (Harea : is_zero (Simpson.area (Simpson_middle f a b)) = true).
    { unfold Simpson_middle, Simpson_estimate. cbn [Simpson.area].
      apply zero_div_literal; [|exact H6].
      apply zero_mul_finite; [|exact Hsum].
      unfold Simpson_start, Simpson_end. cbn [Simpson.x]. rewrite Hord.
      cbn [fst snd]. now rewrite abs_zero. }
    assert (Hfin : Simpson_endpoints_finite f a b = true).
    { unfold Simpson_sum3 in Hsum.
      apply isfinite_add in Hsum. destruct Hsum as [Hsum He].
      apply isfinite_add in Hsum. destruct Hsum as [Hs Hm].
      apply isfinite_mul in Hm. destruct Hm as [_ Hm].
      unfold Simpson_endpoints_finite, Simpson_middle, Simpson_estimate.
      cbn [Simpson.y]. now rewrite Hs, He, Hm. }
    destruct H as [(Hnf & _)|(_ & St)]; [congruence|].
    assert (Hstop : Simpson_stops (Simpson_start f a b) (Simpson_end f a b)
                      (max eps Simpson_floor) = true).
    { unfold Simpson_stops, Simpson_start, Simpson_end. cbn [Simpson.x].
      rewrite Hord. cbn [fst snd]. rewrite (abs_zero _ Hw), Hni.
      apply orb_true_r. }
    destruct (is_zero_inv _ Harea) as [s Hs]. exists s. f_equal.
    inversion St; subst; congruence.
  - destruct (Lobatto_run f a b eps md) as (v & t & E & H).
    rewrite E. cbn [value option_map fst].
    assert (Hh : is_zero (Lobatto_h (Lobatto_start f a b) (Lobatto_end f a b)) = true).
    { unfold Lobatto_h, Lobatto_start, Lobatto_end. cbn [Lobatto.x].
      rewrite Hord. cbn [fst snd]. now apply zero_div_literal. }
    assert (Harea : is_zero (Lobatto_kronrod f (Lobatto_start f a b)
                               (Lobatto_end f a b)) = true).
    { unfold Lobatto_kronrod. apply zero_mul_finite; [|exact Hsum].
      now apply zero_div_literal. }
    assert (Hfin : Lobatto_endpoints_finite f a b = true).
    { unfold Lobatto_sum7 in Hsum.
      apply isfinite_add in Hsum. destruct Hsum as [Hsum _].
      apply isfinite_add in Hsum. destruct Hsum as [Hsum _].
      apply isfinite_add in Hsum. destruct Hsum as [Hsum _].
      apply isfinite_mul in Hsum. destruct Hsum as [Hsum _].
      apply isfinite_add in Hsum. destruct Hsum as [Hs He].
      unfold Lobatto_endpoints_finite. now rewrite Hs, He. }
    destruct H as [(Hnf & _)|(_ & St)]; [congruence|].
    assert (Hfinal : Lobatto_final (N.min md 8) (Lobatto_start f a b)
                       (Lobatto_end f a b) 0 = true).
    { unfold Lobatto_final. now rewrite (abs_zero _ Hh), Hni. }
    destruct (is_zero_inv _ Harea) as [s Hs]. exists s. f_equal.
    apply is_zero_finite in Harea.
    inversion St; subst; congruence.
Qed.

(** *** The acceptance test of Simpson *)

(** C9 (amended). Epsilon is an absolute tolerance: a Simpson recursive
    step that passes the entry test (its epsilon is not below machine
    epsilon and its width not below NumericInterval), whose two
    quarter-point samples are finite and that has depth budget left,
    stops subdividing, returning L + R + error, exactly when the absolute
    value of the estimated error (L + R - M) / 15 is below its epsilon;
    nothing is divided by the estimate. *)
Theorem Simpson_acceptance_is_absolute f md fuel start middle end_ eps depth :
  (md < 255)%N -> (depth < md)%N -> (N.to_nat (md - depth) < fuel)%nat ->
  Simpson_stops start end_ eps = false ->
  Simpson_samples_finite f start middle end_ = true ->
  ((abs (Simpson_error f start middle end_) <? eps) = true
   <-> Simpson.recursive fuel md f start middle end_ eps depth
       = Some (Simpson_corrected f start middle end_,
               Simpson_quarter_samples start middle end_)).
Proof.
  intros Hmd Hd Hf Hstop Hfin.
  destruct (Simpson_recursive_sound f md fuel Hmd start middle end_ eps depth
              ltac:(lia) Hf) as (v & t & E & St).
  rewrite E. split.
  - intros Herr.
    assert (Hacc : Simpson_accepts md f start middle end_ eps depth = true).
    { unfold Simpson_accepts. now rewrite Herr. }
    inversion St; subst; congruence.
  - intros Hrun. injection Hrun as -> ->.
    destruct (abs (Simpson_error f start middle end_) <? eps) eqn:Herr;
      [reflexivity|].
    assert (Hacc : Simpson_accepts md f start middle end_ eps depth = false).
    { unfold Simpson_accepts. rewrite Herr. apply N.ltb_ge. lia. }
    inversion St; subst; congruence.
Qed.

(** *** How a Lobatto step fails *)


(** *** The steps as stated, when they stop *)

Lemma Simpson_claimed_accepting f md start middle end_ eps depth v :
  Simpson_claimed f md start middle end_ eps depth v ->
  Simpson_stops start end_ eps = false ->
  Simpson_accepts md f start middle end_ eps depth = true ->
  v = Simpson_corrected f start middle end_.
Proof. intros Hv Hs Ha. inversion Hv; subst; congruence. Qed.

Lemma Lobatto_claimed_final f md eps s e depth v :
  Lobatto_claimed f md eps s e depth v ->
  Lobatto_final md s e depth = true ->
  v = Lobatto_kronrod f s e.
Proof. intros Hv Hf. inversion Hv; subst; congruence. Qed.

(** C7. In every run of Simpson and of Lobatto, a call that subdivides
    its interval has a width that is not below NumericInterval, and the
    depth it passes to its recursive calls is at most the clamped
    max_depth.  (Lobatto measures the half-width; for bounds that are
    numbers of the format, a half-width not below NumericInterval implies
    a width not below it.) *)
Theorem no_subdivision_below_interval_or_depth f a b eps md sx ex d :
  (In (Recurse sx ex d) (trace (Simpson.Simpson f a b eps md)) ->
   (abs (ex - sx) <? numeric_interval) = false /\ (d <= N.min md 22)%N)
  /\ (Lobatto_format_ok = true -> valid a = true -> valid b = true ->
      In (Recurse sx ex d) (trace (Lobatto.Lobatto f a b eps md)) ->
      (abs (ex - sx) <? numeric_interval) = false
      /\ (abs ((ex - sx) / of_Z 2) <? numeric_interval) = false
      /\ (d <= N.min md 8)%N).
Proof.
  split.
  - destruct (Simpson_run f a b eps md) as (v & t & E & H).
    rewrite E. cbn [trace]. intros Hin.
    apply in_app_or in Hin. destruct Hin as [Hin|Hin].
    { unfold Simpson_first_samples in Hin. simpl in Hin.
      repeat (destruct Hin as [Hin|Hin]; [discriminate|]). destruct Hin. }
    destruct H as [(_ & _ & ->)|(_ & St)]; [destruct Hin|].
    eapply Simpson_step_invariant; eauto.
  - intros Hok Ha Hb.
    destruct (Lobatto_run f a b eps md) as (v & t & E & H).
    rewrite E. cbn [trace]. intros Hin.
    apply in_app_or in Hin. destruct Hin as [Hin|Hin].
    { unfold Lobatto_first_samples in Hin. simpl in Hin.
      repeat (destruct Hin as [Hin|Hin]; [discriminate|]). destruct Hin. }
    destruct H as [(_ & _ & ->)|(_ & St)]; [destruct Hin|].
    destruct (Lobatto_step_invariant _ _ _ _ _ _ _ _ St _ _ _ Hin) as [Hh Hd].
    split; [|split; assumption].
    eapply Lobatto_step_width; eauto;
      unfold Lobatto_start, Lobatto_end; cbn [Lobatto.x];
      destruct (ordered_cases a b) as [-> | ->]; assumption.
Qed.
End Proofs.

(** ** The properties at concrete inputs, in binary128 *)

(** Both formats the header can choose are well formed. *)
Lemma formats_well_formed :
  Lobatto_format_ok (fmt := binary128) = true
  /\ Lobatto_format_ok (fmt := x87_extended) = true
  /\ literals_ok (fmt := binary128) = true
  /\ literals_ok (fmt := x87_extended) = true.
Proof. repeat split; vm_compute; reflexivity. Qed.

Section Examples.
Local Existing Instance binary128.
Local Open Scope real_scope.

Ltac in_list := repeat first [left; reflexivity | right].

(** C1 at a concrete input: the first recursive step of Simpson for
    6x^2 - 8x + 5 on [1, 4] with depth budget 8. *)
Lemma Simpson_recursive_step_witness :
  (8 < 255)%N /\ (0 <= 8)%N /\ (N.to_nat (8 - 0) < 9)%nat /\
  exists v t,
    Simpson.recursive 9 8 func_poly
      (Simpson_start func_poly (of_Z 1) (of_Z 4))
      (Simpson_middle func_poly (of_Z 1) (of_Z 4))
      (Simpson_end func_poly (of_Z 1) (of_Z 4)) default_epsilon 0 = Some (v, t)
    /\ Simpson_step func_poly 8
         (Simpson_start func_poly (of_Z 1) (of_Z 4))
         (Simpson_middle func_poly (of_Z 1) (of_Z 4))
         (Simpson_end func_poly (of_Z 1) (of_Z 4)) default_epsilon 0 v t
    /\ forall v' t',
        Simpson_step func_poly 8
          (Simpson_start func_poly (of_Z 1) (of_Z 4))
          (Simpson_middle func_poly (of_Z 1) (of_Z 4))
          (Simpson_end func_poly (of_Z 1) (of_Z 4)) default_epsilon 0 v' t' ->
        v' = v /\ t' = t.
Proof.
  split; [reflexivity|]. split; [discriminate|]. split; [vm_compute; lia|].
  apply Simpson_recursive_step; [reflexivity|discriminate|vm_compute; lia].
Defined.

(** C1 as stated fails: for the integrand 1/(4x-1)^2 on [0, 1] with no
    depth budget, the sample at 1/4 is infinite and the code returns NaN,
    whereas the step as stated yields +infinity and nothing else. *)
Lemma Simpson_claimed_misses_poison :
  let f := func_pole 4 in
  let start := Simpson_start f (of_Z 0) (of_Z 1) in
  let middle := Simpson_middle f (of_Z 0) (of_Z 1) in
  let end_ := Simpson_end f (of_Z 0) (of_Z 1) in
  value (Simpson.recursive 1 0 f start middle end_ default_epsilon 0) = Some NaN
  /\ Simpson_claimed f 0 start middle end_ default_epsilon 0 (S754_infinity false)
  /\ forall v, Simpson_claimed f 0 start middle end_ default_epsilon 0 v ->
          v = S754_infinity false.
Proof.
  intros f start middle end_.
  split; [vm_compute; reflexivity|].
  assert (Hstop : Simpson_stops start end_ default_epsilon = false)
    by (vm_compute; reflexivity).
  assert (Hacc : Simpson_accepts 0 f start middle end_ default_epsilon 0 = true)
    by (vm_compute; reflexivity).
  assert (Hval : Simpson_corrected f start middle end_ = S754_infinity false)
    by (vm_compute; reflexivity).
  rewrite <- Hval. split.
  - now apply claimed_accept.
  - intros v Hv. exact (Simpson_claimed_accepting _ _ _ _ _ _ _ _ Hv Hstop Hacc).
Qed.

(** C2 at a concrete input: the first recursive step of Lobatto for
    6x^2 - 8x + 5 on [1, 4] with depth budget 2. *)
Lemma Lobatto_recursive_step_witness :
  (2 < 255)%N /\ (0 <= 2)%N /\ (N.to_nat (2 - 0) < 3)%nat /\
  exists v t,
    Lobatto.recursive 3 2 default_epsilon func_poly
      (Lobatto_start func_poly (of_Z 1) (of_Z 4))
      (Lobatto_end func_poly (of_Z 1) (of_Z 4)) 0 = Some (v, t)
    /\ Lobatto_step func_poly 2 default_epsilon
         (Lobatto_start func_poly (of_Z 1) (of_Z 4))
         (Lobatto_end func_poly (of_Z 1) (of_Z 4)) 0 v t
    /\ forall v' t',
        Lobatto_step func_poly 2 default_epsilon
          (Lobatto_start func_poly (of_Z 1) (of_Z 4))
          (Lobatto_end func_poly (of_Z 1) (of_Z 4)) 0 v' t' ->
        v' = v /\ t' = t.
Proof.
  split; [reflexivity|]. split; [discriminate|]. split; [vm_compute; lia|].
  apply Lobatto_recursive_step; [reflexivity|discriminate|vm_compute; lia].
Defined.

(** C2 as stated fails: for the integrand 1/(2x-1)^2 on [0, 1] with no
    depth budget, the seven-point estimate is +infinity and the code
    returns NaN, whereas the step as stated returns the estimate. *)
Lemma Lobatto_claimed_misses_poison :
  let f := func_pole 2 in
  let s := Lobatto_start f (of_Z 0) (of_Z 1) in
  let e := Lobatto_end f (of_Z 0) (of_Z 1) in
  value (Lobatto.recursive 1 0 default_epsilon f s e 0) = Some NaN
  /\ Lobatto_claimed f 0 default_epsilon s e 0 (S754_infinity false)
  /\ forall v, Lobatto_claimed f 0 default_epsilon s e 0 v ->
          v = S754_infinity false.
Proof.
  intros f s e.
  split; [vm_compute; reflexivity|].
  assert (Hfinal : Lobatto_final 0 s e 0 = true) by (vm_compute; reflexivity).
  assert (Hval : Lobatto_kronrod f s e = S754_infinity false)
    by (vm_compute; reflexivity).
  rewrite <- Hval. split.
  - now apply lclaimed_final.
  - intros v Hv. exact (Lobatto_claimed_final _ _ _ _ _ _ _ Hv Hfinal).
Qed.

(** C3 at concrete inputs: 1/(4x-1)^2 is infinite at the quarter point
    1/4 that Simpson samples on [0, 1], and 1/(2x-1)^2 at the midpoint 1/2
    that Lobatto samples; both results are NaN. *)
Lemma nonfinite_sample_poisons_result_witness :
  (poisoned (func_pole 4)
     (trace (Simpson.Simpson (func_pole 4) (of_Z 0) (of_Z 1) default_epsilon 8))
   /\ value (Simpson.Simpson (func_pole 4) (of_Z 0) (of_Z 1) default_epsilon 8)
      = Some NaN)
  /\ (poisoned (func_pole 2)
        (trace (Lobatto.Lobatto (func_pole 2) (of_Z 0) (of_Z 1) default_epsilon 2))
      /\ value (Lobatto.Lobatto (func_pole 2) (of_Z 0) (of_Z 1) default_epsilon 2)
         = Some NaN).
Proof.
  assert (HS : poisoned (func_pole 4)
     (trace (Simpson.Simpson (func_pole 4) (of_Z 0) (of_Z 1) default_epsilon 8))).
  { exists (pow2 (-2)). split; [vm_compute; in_list|vm_compute; reflexivity]. }
  assert (HL : poisoned (func_pole 2)
     (trace (Lobatto.Lobatto (func_pole 2) (of_Z 0) (of_Z 1) default_epsilon 2))).
  { exists (pow2 (-1)). split; [vm_compute; in_list|vm_compute; reflexivity]. }
  split; (split; [assumption|]).
  - apply (proj1 (nonfinite_sample_poisons_result (func_pole 4) (of_Z 0) (of_Z 1)
                    default_epsilon 8)). auto.
  - apply (proj2 (nonfinite_sample_poisons_result (func_pole 2) (of_Z 0) (of_Z 1)
                    default_epsilon 2)). auto.
Defined.

(** C4 (amended) at a concrete input: the bounds 4 and 1. *)
Lemma reversed_bounds_same_result_witness :
  opposite_zeros (of_Z 4) (of_Z 1) = false
  /\ value (Simpson.Simpson func_poly (of_Z 4) (of_Z 1) default_epsilon 8)
     = value (Simpson.Simpson func_poly (of_Z 1) (of_Z 4) default_epsilon 8)
  /\ value (Lobatto.Lobatto func_poly (of_Z 4) (of_Z 1) default_epsilon 2)
     = value (Lobatto.Lobatto func_poly (of_Z 1) (of_Z 4) default_epsilon 2).
Proof.
  assert (H : opposite_zeros (of_Z 4) (of_Z 1) = false) by (vm_compute; reflexivity).
  split; [exact H|]. split.
  - apply (proj1 (reversed_bounds_same_result func_poly (of_Z 4) (of_Z 1)
                    default_epsilon 8 H)).
  - apply (proj2 (reversed_bounds_same_result func_poly (of_Z 4) (of_Z 1)
                    default_epsilon 2 H)).
Defined.

(** C4 as stated fails: with the bounds +0 and -0 and an integrand that
    reads the sign of its argument, Simpson returns NaN for one order of
    the bounds and 0 for the other. *)
Lemma reversed_signed_zeros_differ :
  value (Simpson.Simpson func_sign (S754_zero false) (S754_zero true)
           default_epsilon 8) = Some NaN
  /\ value (Simpson.Simpson func_sign (S754_zero true) (S754_zero false)
              default_epsilon 8) = Some (S754_zero false)
  /\ value (Simpson.Simpson func_sign (S754_zero false) (S754_zero true)
              default_epsilon 8)
     <> value (Simpson.Simpson func_sign (S754_zero true) (S754_zero false)
                 default_epsilon 8).
Proof.
  assert (H1 : value (Simpson.Simpson func_sign (S754_zero false) (S754_zero true)
           default_epsilon 8) = Some NaN) by (vm_compute; reflexivity).
  assert (H2 : value (Simpson.Simpson func_sign (S754_zero true) (S754_zero false)
              default_epsilon 8) = Some (S754_zero false)) by (vm_compute; reflexivity).
  split; [exact H1|]. split; [exact H2|].
  rewrite H1, H2. discriminate.
Qed.

(** C5 as stated fails: with max_depth 2 the integrand 1/(3x-1)^2 on
    [0, 1] is evaluated 17 times by Simpson and 217 times by Lobatto,
    more than 2^2 and 6^2. *)
Lemma evaluations_exceed_branching_power :
  evaluations (trace (Simpson.Simpson (func_pole 3) (of_Z 0) (of_Z 1)
                        default_epsilon 2)) = 17%nat
  /\ evaluations (trace (Lobatto.Lobatto (func_pole 3) (of_Z 0) (of_Z 1)
                           default_epsilon 2)) = 217%nat
  /\ ~ (evaluations (trace (Simpson.Simpson (func_pole 3) (of_Z 0) (of_Z 1)
                              default_epsilon 2)) <= 2 ^ 2)%nat
  /\ ~ (evaluations (trace (Lobatto.Lobatto (func_pole 3) (of_Z 0) (of_Z 1)
                              default_epsilon 2)) <= 6 ^ 2)%nat.
Proof.
  assert (H1 : evaluations (trace (Simpson.Simpson (func_pole 3) (of_Z 0) (of_Z 1)
                        default_epsilon 2)) = 17%nat) by (vm_compute; reflexivity).
  assert (H2 : evaluations (trace (Lobatto.Lobatto (func_pole 3) (of_Z 0) (of_Z 1)
                           default_epsilon 2)) = 217%nat) by (vm_compute; reflexivity).
  rewrite H1, H2. simpl. repeat split; lia.
Qed.

(** C6 at a concrete input: the unit step at 1/3 on [0, 1], which both
    integrators subdivide down to their ceiling (depth 22 and depth 8),
    with max_depth 50, and with epsilon 0. *)
Lemma parameters_are_clamped_witness :
  let f := func_step (of_Z 1 / of_Z 3) in
  ((22 < 50)%N /\ (50 < 256)%N
   /\ Simpson.Simpson f (of_Z 0) (of_Z 1) default_epsilon 50
      = Simpson.Simpson f (of_Z 0) (of_Z 1) default_epsilon 22
   /\ deepest (trace (Simpson.Simpson f (of_Z 0) (of_Z 1) default_epsilon 50))
      = 22%N)
  /\ ((8 < 50)%N /\ (50 < 256)%N
      /\ Lobatto.Lobatto f (of_Z 0) (of_Z 1) default_epsilon 50
         = Lobatto.Lobatto f (of_Z 0) (of_Z 1) default_epsilon 8
      /\ deepest (trace (Lobatto.Lobatto f (of_Z 0) (of_Z 1) default_epsilon 50))
         = 8%N)
  /\ ((of_Z 0 <? Simpson_floor) = true /\
      Simpson.Simpson f (of_Z 0) (of_Z 1) (of_Z 0) 50
      = Simpson.Simpson f (of_Z 0) (of_Z 1) Simpson_floor 50)
  /\ ((of_Z 0 <? numeric_epsilon) = true /\
      Lobatto.Lobatto f (of_Z 0) (of_Z 1) (of_Z 0) 50
      = Lobatto.Lobatto f (of_Z 0) (of_Z 1) numeric_epsilon 50).
Proof.
  intros f.
  pose proof (parameters_are_clamped f (of_Z 0) (of_Z 1) default_epsilon 50)
    as (H1 & H2 & _ & _).
  pose proof (parameters_are_clamped f (of_Z 0) (of_Z 1) (of_Z 0) 50)
    as (_ & _ & H3 & H4).
  assert (E3 : (of_Z 0 <? Simpson_floor) = true) by (vm_compute; reflexivity).
  assert (E4 : (of_Z 0 <? numeric_epsilon) = true) by (vm_compute; reflexivity).
  assert (D1 : deepest (trace (Simpson.Simpson f (of_Z 0) (of_Z 1)
                                 default_epsilon 50)) = 22%N)
    by (vm_compute; reflexivity).
  assert (D2 : deepest (trace (Lobatto.Lobatto f (of_Z 0) (of_Z 1)
                                 default_epsilon 50)) = 8%N)
    by (vm_compute; reflexivity).
  split.
  { split; [reflexivity|]. split; [reflexivity|].
    split; [apply H1; reflexivity|exact D1]. }
  split.
  { split; [reflexivity|]. split; [reflexivity|].
    split; [apply H2; reflexivity|exact D2]. }
  split; [split; [exact E3|apply H3; exact E3]|].
  split; [exact E4|apply H4; exact E4].
Defined.

(** C7 at concrete inputs: a subdivision that each integrator makes for
    1/(3x-1)^2 on [0, 1]. *)
Lemma no_subdivision_below_interval_or_depth_witness :
  (In (Recurse (of_Z 0) (pow2 (-1)) 2)
      (trace (Simpson.Simpson (func_pole 3) (of_Z 0) (of_Z 1) default_epsilon 2))
   /\ (abs (pow2 (-1) - of_Z 0) <? numeric_interval) = false /\ (2 <= N.min 2 22)%N)
  /\ (Lobatto_format_ok = true /\ valid (of_Z 0) = true /\ valid (of_Z 1) = true
      /\ In (Recurse (of_Z 0) (of_Z 1) 1)
            (trace (Lobatto.Lobatto (func_pole 3) (of_Z 0) (of_Z 1) default_epsilon 1))
      /\ (abs (of_Z 1 - of_Z 0) <? numeric_interval) = false
      /\ (abs ((of_Z 1 - of_Z 0) / of_Z 2) <? numeric_interval) = false
      /\ (1 <= N.min 1 8)%N).
Proof.
  assert (HS : In (Recurse (of_Z 0) (pow2 (-1)) 2)
      (trace (Simpson.Simpson (func_pole 3) (of_Z 0) (of_Z 1) default_epsilon 2)))
    by (vm_compute; in_list).
  assert (HL : In (Recurse (of_Z 0) (of_Z 1) 1)
      (trace (Lobatto.Lobatto (func_pole 3) (of_Z 0) (of_Z 1) default_epsilon 1)))
    by (vm_compute; in_list).
  assert (Hok : Lobatto_format_ok = true) by (vm_compute; reflexivity).
  assert (Ha : valid (of_Z 0) = true) by (vm_compute; reflexivity).
  assert (Hb : valid (of_Z 1) = true) by (vm_compute; reflexivity).
  split.
  - split; [exact HS|].
    exact (proj1 (no_subdivision_below_interval_or_depth (func_pole 3) (of_Z 0)
                    (of_Z 1) default_epsilon 2 (of_Z 0) (pow2 (-1)) 2) HS).
  - split; [exact Hok|]. split; [exact Ha|]. split; [exact Hb|]. split; [exact HL|].
    exact (proj2 (no_subdivision_below_interval_or_depth (func_pole 3) (of_Z 0)
                    (of_Z 1) default_epsilon 1 (of_Z 0) (of_Z 1) 1) Hok Ha Hb HL).
Defined.

(** C8 (amended) at a concrete input: 6x^2 - 8x + 5 on the interval from
    3 to 3. *)
Lemma degenerate_interval_zero_witness :
  literals_ok = true /\ SFeqb (of_Z 3) (of_Z 3) = true /\ isfinite (of_Z 3) = true
  /\ (isfinite (Simpson_sum3 func_poly (Simpson_start func_poly (of_Z 3) (of_Z 3))
                  (Simpson_end func_poly (of_Z 3) (of_Z 3))) = true
      /\ exists s, value (Simpson.Simpson func_poly (of_Z 3) (of_Z 3) default_epsilon 8)
              = Some (S754_zero s))
  /\ (isfinite (Lobatto_sum7 func_poly (Lobatto_start func_poly (of_Z 3) (of_Z 3))
                  (Lobatto_end func_poly (of_Z 3) (of_Z 3))) = true
      /\ exists s, value (Lobatto.Lobatto func_poly (of_Z 3) (of_Z 3) default_epsilon 2)
              = Some (S754_zero s)).
Proof.
  assert (H1 : literals_ok = true) by (vm_compute; reflexivity).
  assert (H2 : SFeqb (of_Z 3) (of_Z 3) = true) by (vm_compute; reflexivity).
  assert (H3 : isfinite (of_Z 3) = true) by (vm_compute; reflexivity).
  pose proof (degenerate_interval_zero func_poly (of_Z 3) (of_Z 3) default_epsilon 8
                H1 H2 H3) as [HS _].
  pose proof (degenerate_interval_zero func_poly (of_Z 3) (of_Z 3) default_epsilon 2
                H1 H2 H3) as [_ HL].
  assert (ES : isfinite (Simpson_sum3 func_poly
                 (Simpson_start func_poly (of_Z 3) (of_Z 3))
                 (Simpson_end func_poly (of_Z 3) (of_Z 3))) = true)
    by (vm_compute; reflexivity).
  assert (EL : isfinite (Lobatto_sum7 func_poly
                 (Lobatto_start func_poly (of_Z 3) (of_Z 3))
                 (Lobatto_end func_poly (of_Z 3) (of_Z 3))) = true)
    by (vm_compute; reflexivity).
  split; [exact H1|]. split; [exact H2|]. split; [exact H3|].
  split; (split; [assumption|]); [apply HS|apply HL]; assumption.
Defined.

(** C8 as stated fails: the constant integrand 2^16383 is finite at 0,
    and on the degenerate interval from 0 to 0 Simpson and Lobatto both
    return NaN, the weighted sum of the samples having overflowed. *)
Lemma degenerate_interval_overflow :
  isfinite (func_const huge (of_Z 0)) = true
  /\ value (Simpson.Simpson (func_const huge) (of_Z 0) (of_Z 0) default_epsilon 8)
     = Some NaN
  /\ value (Lobatto.Lobatto (func_const huge) (of_Z 0) (of_Z 0) default_epsilon 2)
     = Some NaN.
Proof. repeat split; vm_compute; reflexivity. Qed.

(** C9 (amended) at a concrete input: 2^-40 x^4 on [0, 1]. *)
Lemma Simpson_acceptance_is_absolute_witness :
  let f := func_small_quartic in
  let start := Simpson_start f (of_Z 0) (of_Z 1) in
  let middle := Simpson_middle f (of_Z 0) (of_Z 1) in
  let end_ := Simpson_end f (of_Z 0) (of_Z 1) in
  (8 < 255)%N /\ (0 < 8)%N /\ (N.to_nat (8 - 0) < 9)%nat
  /\ Simpson_stops start end_ default_epsilon = false
  /\ Simpson_samples_finite f start middle end_ = true
  /\ ((abs (Simpson_error f start middle end_) <? default_epsilon) = true
      <-> Simpson.recursive 9 8 f start middle end_ default_epsilon 0
          = Some (Simpson_corrected f start middle end_,
                  Simpson_quarter_samples start middle end_)).
Proof.
  intros f start middle end_.
  assert (H4 : Simpson_stops start end_ default_epsilon = false)
    by (vm_compute; reflexivity).
  assert (H5 : Simpson_samples_finite f start middle end_ = true)
    by (vm_compute; reflexivity).
  split; [reflexivity|]. split; [reflexivity|]. split; [vm_compute; lia|].
  split; [exact H4|]. split; [exact H5|].
  apply Simpson_acceptance_is_absolute;
    [reflexivity|reflexivity|vm_compute; lia|exact H4|exact H5].
Defined.

(** C9 as stated fails: for 2^-40 x^4 on [0, 1] with epsilon 1e-10 and
    depth budget left, the step stops subdividing although the estimated
    error relative to the estimate, about 0.0026, is not below epsilon:
    only the absolute error, about 4.7e-16, is. *)
Lemma Simpson_acceptance_not_relative :
  let f := func_small_quartic in
  let start := Simpson_start f (of_Z 0) (of_Z 1) in
  let middle := Simpson_middle f (of_Z 0) (of_Z 1) in
  let end_ := Simpson_end f (of_Z 0) (of_Z 1) in
  Simpson.recursive 9 8 f start middle end_ default_epsilon 0
  = Some (Simpson_corrected f start middle end_,
          Simpson_quarter_samples start middle end_)
  /\ (abs (Simpson_relative_error f start middle end_) <? default_epsilon) = false
  /\ (abs (Simpson_error f start middle end_) <? default_epsilon) = true
  /\ (8 <? 0 + 1)%N = false.
Proof. intros f start middle end_. repeat split; vm_compute; reflexivity. Qed.
End Examples.

(** ** Further properties of the integrators *)

Section FurtherProofs.
Context {fmt : Format}.
Local Open Scope real_scope.

(** *** Traces *)

Lemma subdivisions_app t1 t2 :
  subdivisions (t1 ++ t2) = (subdivisions t1 + subdivisions t2)%nat.
Proof.
  induction t1 as [|[x|s e d] t1 IH]; simpl; [reflexivity|assumption|].
  now rewrite IH.
Qed.

(** *** Comparisons *)

Lemma finite_compare_trans (e1 e2 e3 : Z) (m1 m2 m3 : positive) :
  match (e1 ?= e2)%Z with Lt => Lt | Gt => Gt | Eq => Pos.compare_cont Eq m1 m2 end = Lt ->
  match (e2 ?= e3)%Z with Lt => Lt | Gt => Gt | Eq => Pos.compare_cont Eq m2 m3 end = Lt ->
  match (e1 ?= e3)%Z with Lt => Lt | Gt => Gt | Eq => Pos.compare_cont Eq m1 m3 end = Lt.
Proof.
  change (Pos.compare_cont Eq m1 m2) with (m1 ?= m2)%positive.
  change (Pos.compare_cont Eq m2 m3) with (m2 ?= m3)%positive.
  change (Pos.compare_cont Eq m1 m3) with (m1 ?= m3)%positive.
  destruct (Z.compare_spec e1 e2), (Z.compare_spec e2 e3), (Z.compare_spec e1 e3);
    try discriminate; try lia; intros H12 H23; try reflexivity.
  exact (Pos.lt_trans _ _ _ H12 H23).
Qed.

Lemma finite_compare_trans_opp (e1 e2 e3 : Z) (m1 m2 m3 : positive) :
  match (e1 ?= e2)%Z with Lt => Gt | Gt => Lt | Eq => CompOpp (Pos.compare_cont Eq m1 m2) end = Lt ->
  match (e2 ?= e3)%Z with Lt => Gt | Gt => Lt | Eq => CompOpp (Pos.compare_cont Eq m2 m3) end = Lt ->
  match (e1 ?= e3)%Z with Lt => Gt | Gt => Lt | Eq => CompOpp (Pos.compare_cont Eq m1 m3) end = Lt.
Proof.
  change (Pos.compare_cont Eq m1 m2) with (m1 ?= m2)%positive.
  change (Pos.compare_cont Eq m2 m3) with (m2 ?= m3)%positive.
  change (Pos.compare_cont Eq m1 m3) with (m1 ?= m3)%positive.
  destruct (Z.compare_spec e1 e2), (Z.compare_spec e2 e3), (Z.compare_spec e1 e3);
    try discriminate; try lia; intros H12 H23; try reflexivity.
  destruct (Pos.compare_spec m1 m2), (Pos.compare_spec m2 m3), (Pos.compare_spec m1 m3);
    try discriminate; try reflexivity; lia.
Qed.

Lemma SFltb_trans (a b c : Real) :
  (a <? b) = true -> (b <? c) = true -> (a <? c) = true.
Proof.
  unfold SFltb.
  destruct a as [sa|sa| |sa ma ea], b as [sb|sb| |sb mb eb], c as [sc|sc| |sc mc ec];
    simpl; try discriminate; try (destruct sa; discriminate);
    try (destruct sb; discriminate); try (destruct sc; discriminate); 
    try (destruct sa, sb; discriminate); try (destruct sb, sc; discriminate);
    try (destruct sa, sb, sc; simpl; try discriminate; reflexivity).
  all: destruct sa, sb, sc; simpl; try discriminate; try reflexivity.
  - intros H1 H2.
    destruct (match (ea ?= eb)%Z with Lt => Gt | Gt => Lt | Eq => CompOpp (Pos.compare_cont Eq ma mb) end) eqn:E1; try discriminate.
    destruct (match (eb ?= ec)%Z with Lt => Gt | Gt => Lt | Eq => CompOpp (Pos.compare_cont Eq mb mc) end) eqn:E2; try discriminate.
    now rewrite (finite_compare_trans_opp _ _ _ _ _ _ E1 E2).
  - intros H1 H2.
    destruct (match (ea ?= eb)%Z with Lt => Lt | Gt => Gt | Eq => Pos.compare_cont Eq ma mb end) eqn:E1; try discriminate.
    destruct (match (eb ?= ec)%Z with Lt => Lt | Gt => Gt | Eq => Pos.compare_cont Eq mb mc end) eqn:E2; try discriminate.
    now rewrite (finite_compare_trans _ _ _ _ _ _ E1 E2).
Qed.

Lemma clamped_epsilon_not_below (eps : Real) :
  (numeric_epsilon <? Simpson_floor) = true ->
  (max eps Simpson_floor <? numeric_epsilon) = false.
Proof.
  intros Hf. unfold max. destruct (eps <? Simpson_floor) eqn:E.
  - now apply SFltb_asym.
  - destruct (eps <? numeric_epsilon) eqn:E'; [|reflexivity].
    rewrite (SFltb_trans _ _ _ E' Hf) in E. discriminate.
Qed.

(** *** Infinite and NaN operands *)

Lemma isfinite_sub (a b : Real) :
  isfinite (a - b) = true -> isfinite a = true /\ isfinite b = true.
Proof.
  destruct a as [sa|sa| |sa ma ea], b as [sb|sb| |sb mb eb]; simpl; auto;
    try (destruct sa, sb; simpl; auto; discriminate).
Qed.

Lemma isfinite_div_l (a b : Real) : isfinite (a / b) = true -> isfinite a = true.
Proof.
  destruct a as [sa|sa| |sa ma ea], b as [sb|sb| |sb mb eb]; simpl; auto.
Qed.

Lemma sub_not_finite (a b : Real) :
  isfinite a = false \/ isfinite b = false -> isfinite (a - b) = false.
Proof.
  intros H. destruct (isfinite (a - b)) eqn:E; [|reflexivity].
  apply isfinite_sub in E. destruct E, H; congruence.
Qed.

Lemma div_not_finite (a b : Real) :
  isfinite a = false -> isfinite (a / b) = false.
Proof.
  intros H. destruct (isfinite (a / b)) eqn:E; [|reflexivity].
  apply isfinite_div_l in E. congruence.
Qed.

Lemma mul_not_finite_l (a b : Real) :
  isfinite a = false -> isfinite (a * b) = false.
Proof.
  intros H. destruct (isfinite (a * b)) eqn:E; [|reflexivity].
  apply isfinite_mul in E. destruct E; congruence.
Qed.

Lemma binary_round_aux_sign sx mx ex lx :
  match binary_round_aux prec emax sx mx ex lx with
  | S754_zero s | S754_finite s _ _ => s = sx
  | _ => True
  end.
Proof.
  unfold binary_round_aux.
  destruct (shr_fexp prec emax mx ex lx) as [mrs' e'].
  destruct (shr_fexp prec emax _ e' loc_Exact) as [mrs'' e''].
  destruct (shr_m mrs''); [reflexivity| |exact I].
  destruct (e'' <=? emax - prec)%Z; [reflexivity|exact I].
Qed.

Lemma of_Z_pos_sign (p : positive) :
  match of_Z (Zpos p) with
  | S754_zero s | S754_finite s _ _ => s = false
  | _ => True
  end.
Proof.
  unfold of_Z. cbn [binary_normalize]. unfold binary_round.
  destruct (shl_align p 0 _) as [mz ez].
  apply binary_round_aux_sign.
Qed.

(** Half an infinity is that infinity, or a NaN in a format without a
    finite 2. *)
Lemma half_infinity (sg : bool) :
  S754_infinity sg / of_Z 2 = S754_infinity sg \/ S754_infinity sg / of_Z 2 = NaN.
Proof.
  pose proof (of_Z_pos_sign 2) as H.
  destruct (of_Z 2) as [s|s| |s m e]; cbn [SFdiv]; auto;
    subst s; rewrite xorb_false_r; auto.
Qed.

Lemma undefined_width_sub p q : undefined_width p q -> q - p = NaN.
Proof.
  intros [-> | [-> | (sg & -> & ->)]].
  - apply sub_nan_r.
  - apply sub_nan_l.
  - destruct sg; reflexivity.
Qed.

Lemma undefined_width_mid p q :
  undefined_width p q ->
  undefined_width p ((p + q) / of_Z 2) /\ undefined_width ((p + q) / of_Z 2) q.
Proof.
  intros [-> | [-> | (sg & -> & ->)]].
  - split; [left; reflexivity|left; rewrite add_nan_l; reflexivity].
  - split; [right; left|left]; rewrite add_nan_r; reflexivity.
  - assert (E : S754_infinity sg + S754_infinity sg = S754_infinity sg)
      by (destruct sg; reflexivity).
    rewrite E. destruct (half_infinity sg) as [-> | ->].
    + split; right; right; exists sg; auto.
    + split; [right; left|left]; reflexivity.
Qed.

Lemma Simpson_estimate_undefined f s e :
  undefined_width (Simpson.x s) (Simpson.x e) ->
  Simpson.area (Simpson_estimate f s e) = NaN.
Proof.
  intros H. unfold Simpson_estimate. cbn [Simpson.area].
  now rewrite (undefined_width_sub _ _ H).
Qed.

Lemma Simpson_step_undefined f md start middle end_ eps depth v t :
  Simpson_step f md start middle end_ eps depth v t ->
  undefined_width (Simpson.x start) (Simpson.x middle)
  \/ undefined_width (Simpson.x middle) (Simpson.x end_) ->
  (Simpson_stops start end_ eps = true -> Simpson.area middle = NaN) ->
  v = NaN.
Proof.
  induction 1; intros Hw Hs.
  - auto.
  - reflexivity.
  - unfold Simpson_corrected. destruct Hw as [Hw|Hw];
      rewrite (Simpson_estimate_undefined f _ _ Hw);
      rewrite ?add_nan_l, ?add_nan_r; reflexivity.
  - destruct Hw as [Hw|Hw].
    + rewrite IHSimpson_step1; [reflexivity| |].
      * left. unfold Simpson_estimate at 1. cbn [Simpson.x].
        now apply undefined_width_mid.
      * intros _. now apply Simpson_estimate_undefined.
    + rewrite IHSimpson_step2; [apply add_nan_r| |].
      * left. unfold Simpson_estimate at 1. cbn [Simpson.x].
        now apply undefined_width_mid.
      * intros _. now apply Simpson_estimate_undefined.
Qed.

Lemma not_finite_cases (x : Real) :
  isfinite x = false -> x = NaN \/ exists sg, x = S754_infinity sg.
Proof. destruct x as [s|s| |s m e]; try discriminate; eauto. Qed.

(** The midpoint of an interval with a bound that is not finite. *)
Lemma unbounded_mid (lo hi : Real) :
  isfinite lo = false \/ isfinite hi = false ->
  undefined_width lo ((lo + hi) / of_Z 2) \/ undefined_width ((lo + hi) / of_Z 2) hi.
Proof.
  intros [H|H]; apply not_finite_cases in H; destruct H as [-> | (sg & ->)].
  - left. left. reflexivity.
  - left. assert (E : S754_infinity sg + hi = S754_infinity sg
                      \/ S754_infinity sg + hi = NaN).
    { destruct hi as [s|s| |s m e]; cbn; auto. destruct sg, s; cbn; auto. }
    destruct E as [-> | ->]; [|right; left; reflexivity].
    destruct (half_infinity sg) as [-> | ->].
    + right. right. exists sg. auto.
    + right. left. reflexivity.
  - right. right. left. reflexivity.
  - assert (E : lo + S754_infinity sg = S754_infinity sg
                \/ lo + S754_infinity sg = NaN).
    { destruct lo as [s|s| |s m e]; cbn; auto. destruct sg, s; cbn; auto. }
    right. destruct E as [-> | ->]; [|left; reflexivity].
    destruct (half_infinity sg) as [-> | ->].
    + right. right. exists sg. auto.
    + left. reflexivity.
Qed.

Lemma unbounded_not_narrow (lo hi : Real) :
  isfinite lo = false \/ isfinite hi = false ->
  (abs (hi - lo) <? numeric_interval) = false.
Proof.
  intros H. assert (Hd : isfinite (hi - lo) = false)
    by (apply sub_not_finite; tauto).
  destruct (hi - lo) as [s|s| |s m e]; try discriminate; [|reflexivity].
  change (abs (S754_infinity s)) with (S754_infinity false).
  destruct numeric_interval as [s'|s'| |s' m' e']; try reflexivity.
  destruct s'; reflexivity.
Qed.

(** X1. When a bound of integration is an infinity or a NaN, Simpson
    returns NaN (in a format whose machine epsilon is below 512 times
    itself, as it is in both formats of the header). *)
Theorem Simpson_unbounded_interval f a b eps md :
  (numeric_epsilon <? Simpson_floor) = true ->
  isfinite a = false \/ isfinite b = false ->
  value (Simpson.Simpson f a b eps md) = Some NaN.
Proof.
  intros Hfmt Hab.
  assert (Ho : isfinite (fst (ordered a b)) = false
               \/ isfinite (snd (ordered a b)) = false).
  { destruct (ordered_cases a b) as [-> | ->]; cbn [fst snd]; tauto. }
  destruct (Simpson_run f a b eps md) as (v & t & E & H).
  rewrite E. cbn [value option_map fst].
  destruct H as [(_ & -> & _)|(_ & St)]; [reflexivity|].
  f_equal. apply (Simpson_step_undefined _ _ _ _ _ _ _ _ _ St).
  - unfold Simpson_middle, Simpson_estimate, Simpson_start, Simpson_end.
    cbn [Simpson.x]. now apply unbounded_mid.
  - unfold Simpson_stops, Simpson_start, Simpson_end. cbn [Simpson.x].
    rewrite (clamped_epsilon_not_below eps Hfmt),
            (unbounded_not_narrow _ _ Ho).
    discriminate.
Qed.

Lemma Lobatto_kronrod_unbounded f s e :
  isfinite (Lobatto.x s) = false \/ isfinite (Lobatto.x e) = false ->
  isfinite (Lobatto_kronrod f s e) = false.
Proof.
  intros H. unfold Lobatto_kronrod, Lobatto_h.
  apply mul_not_finite_l, div_not_finite, div_not_finite, sub_not_finite. tauto.
Qed.

(** X2. When a bound of integration is an infinity or a NaN, Lobatto
    returns NaN, after at most seven evaluations of the integrand. *)
Theorem Lobatto_unbounded_interval f a b eps md :
  isfinite a = false \/ isfinite b = false ->
  value (Lobatto.Lobatto f a b eps md) = Some NaN
  /\ (evaluations (trace (Lobatto.Lobatto f a b eps md)) <= 7)%nat.
Proof.
  intros Hab.
  assert (Ho : isfinite (fst (ordered a b)) = false
               \/ isfinite (snd (ordered a b)) = false).
  { destruct (ordered_cases a b) as [-> | ->]; cbn [fst snd]; tauto. }
  destruct (Lobatto_run f a b eps md) as (v & t & E & H).
  rewrite E. cbn [value option_map fst trace].
  destruct H as [(_ & -> & ->)|(_ & St)].
  { split; [reflexivity|]. cbn. lia. }
  assert (Hk : isfinite (Lobatto_kronrod f (Lobatto_start f a b) (Lobatto_end f a b))
               = false).
  { apply Lobatto_kronrod_unbounded.
    unfold Lobatto_start, Lobatto_end. cbn [Lobatto.x]. tauto. }
  inversion St; subst; try congruence.
  split; [reflexivity|]. cbn. lia.
Qed.

(** *** The halving of epsilon bounds the depth of Simpson *)

Lemma two_pow_succ k : (2 ^ (k + 1) = 2 * 2 ^ k)%nat.
Proof. now rewrite Nat.add_1_r, Nat.pow_succ_r'. Qed.

Lemma one_le_two_pow k : (1 <= 2 ^ k)%nat.
Proof. apply Nat.neq_0_lt_0, Nat.pow_nonzero. discriminate. Qed.

Lemma Simpson_step_halving f md start middle end_ eps depth v t :
  Simpson_step f md start middle end_ eps depth v t ->
  forall k, (halved k eps <? numeric_epsilon) = true ->
  (evaluations t + 2 <= 2 ^ (k + 1))%nat
  /\ (subdivisions t + 1 <= 2 ^ k)%nat.
Proof.
  induction 1; intros k Hk.
  - cbn [evaluations samples length subdivisions].
    rewrite two_pow_succ. pose proof (one_le_two_pow k). lia.
  - destruct k as [|k].
    { cbn [halved] in Hk. unfold Simpson_stops in *. rewrite Hk in *. discriminate. }
    unfold Simpson_quarter_samples. cbn [evaluations samples length subdivisions].
    rewrite two_pow_succ, Nat.pow_succ_r'. pose proof (one_le_two_pow k). lia.
  - destruct k as [|k].
    { cbn [halved] in Hk. unfold Simpson_stops in *. rewrite Hk in *. discriminate. }
    unfold Simpson_quarter_samples. cbn [evaluations samples length subdivisions].
    rewrite two_pow_succ, Nat.pow_succ_r'. pose proof (one_le_two_pow k). lia.
  - destruct k as [|k].
    { cbn [halved] in Hk. unfold Simpson_stops in *. rewrite Hk in *. discriminate. }
    cbn [halved] in Hk.
    destruct (IHSimpson_step1 k Hk) as [El Rl].
    destruct (IHSimpson_step2 k Hk) as [Er Rr].
    rewrite evaluations_app, subdivisions_app.
    change (Recurse (Simpson.x start) (Simpson.x end_) (depth + 1) :: tl ++ tr)
      with ([Recurse (Simpson.x start) (Simpson.x end_) (depth + 1)] ++ tl ++ tr).
    rewrite !evaluations_app, !subdivisions_app.
    unfold Simpson_quarter_samples. cbn [evaluations samples length subdivisions].
    fold (evaluations tl) (evaluations tr).
    rewrite two_pow_succ in *. rewrite Nat.pow_succ_r'. lia.
Qed.

(** X3. Simpson halves epsilon at every level and returns without sampling
    once it is below machine epsilon: when [k] halvings bring the clamped
    epsilon below machine epsilon, a run evaluates the integrand at most
    [2^(k+1) + 1] times and subdivides fewer than [2^k] times, whatever
    max_depth is. *)
Theorem Simpson_halving_bounds_work f a b eps md k :
  (halved k (max eps Simpson_floor) <? numeric_epsilon) = true ->
  exists v t, Simpson.Simpson f a b eps md = Some (v, t)
    /\ (evaluations t <= 2 ^ (k + 1) + 1)%nat
    /\ (subdivisions t < 2 ^ k)%nat.
Proof.
  intros Hk. destruct (Simpson_run f a b eps md) as (v & t & E & H).
  exists v, (Simpson_first_samples f a b ++ t). split; [exact E|].
  rewrite evaluations_app, subdivisions_app. unfold Simpson_first_samples.
  cbn [evaluations samples length subdivisions]. fold (evaluations t).
  destruct H as [(_ & _ & ->)|(_ & St)].
  - cbn [evaluations samples length subdivisions].
    rewrite two_pow_succ. pose proof (one_le_two_pow k). lia.
  - destruct (Simpson_step_halving _ _ _ _ _ _ _ _ _ St k Hk). lia.
Qed.

(** *** The cost of a subdivision *)

Lemma Lobatto_step_evaluations f md eps s e depth v t :
  Lobatto_step f md eps s e depth v t ->
  evaluations t = (5 + 30 * subdivisions t)%nat.
Proof.
  induction 1.
  1-3: reflexivity.
  rewrite evaluations_app, subdivisions_app.
  change (Recurse (Lobatto.x s) (Lobatto.x e) (depth + 1) :: t1 ++ t2 ++ t3 ++ t4 ++ t5 ++ t6)
    with ([Recurse (Lobatto.x s) (Lobatto.x e) (depth + 1)] ++ t1 ++ t2 ++ t3 ++ t4 ++ t5 ++ t6).
  rewrite !evaluations_app, !subdivisions_app.
  unfold Lobatto_node_samples. cbn [evaluations samples length subdivisions].
  fold (evaluations t1) (evaluations t2) (evaluations t3)
       (evaluations t4) (evaluations t5) (evaluations t6).
  lia.
Qed.

Lemma Simpson_step_evaluations f md start middle end_ eps depth v t :
  Simpson_step f md start middle end_ eps depth v t ->
  (2 * subdivisions t <= evaluations t <= 2 + 4 * subdivisions t)%nat.
Proof.
  induction 1.
  1-3: unfold Simpson_quarter_samples;
    cbn [evaluations samples length subdivisions]; lia.
  rewrite evaluations_app, subdivisions_app.
  change (Recurse (Simpson.x start) (Simpson.x end_) (depth + 1) :: tl ++ tr)
    with ([Recurse (Simpson.x start) (Simpson.x end_) (depth + 1)] ++ tl ++ tr).
  rewrite !evaluations_app, !subdivisions_app.
  unfold Simpson_quarter_samples. cbn [evaluations samples length subdivisions].
  fold (evaluations tl) (evaluations tr).
  lia.
Qed.

(** X4. A run of Lobatto that finds the integrand finite at both bounds
    evaluates it exactly [7 + 30 R] times, where [R] is the number of
    subdivisions it made; a run that does not evaluates it twice. *)
Theorem Lobatto_evaluations_by_subdivisions f a b eps md :
  exists v t, Lobatto.Lobatto f a b eps md = Some (v, t)
    /\ evaluations t
       = if Lobatto_endpoints_finite f a b
         then (7 + 30 * subdivisions t)%nat else 2%nat.
Proof.
  destruct (Lobatto_run f a b eps md) as (v & t & E & H).
  exists v, (Lobatto_first_samples f a b ++ t). split; [exact E|].
  rewrite evaluations_app, subdivisions_app. unfold Lobatto_first_samples.
  cbn [evaluations samples length subdivisions]. fold (evaluations t).
  destruct H as [(-> & _ & ->)|(-> & St)]; [reflexivity|].
  rewrite (Lobatto_step_evaluations _ _ _ _ _ _ _ _ St). lia.
Qed.

(** X5. A run of Simpson that subdivides [R] times evaluates the integrand
    at least [3 + 2 R] and at most [5 + 4 R] times. *)
Theorem Simpson_evaluations_by_subdivisions f a b eps md :
  exists v t, Simpson.Simpson f a b eps md = Some (v, t)
    /\ (3 + 2 * subdivisions t <= evaluations t <= 5 + 4 * subdivisions t)%nat.
Proof.
  destruct (Simpson_run f a b eps md) as (v & t & E & H).
  exists v, (Simpson_first_samples f a b ++ t). split; [exact E|].
  rewrite evaluations_app, subdivisions_app. unfold Simpson_first_samples.
  cbn [evaluations samples length subdivisions]. fold (evaluations t).
  destruct H as [(_ & _ & ->)|(_ & St)].
  - cbn [evaluations samples length subdivisions]. lia.
  - pose proof (Simpson_step_evaluations _ _ _ _ _ _ _ _ _ St). lia.
Qed.

(** *** Runs of a single panel *)

(** X6. With max_depth 0, or with a half-width below NumericInterval,
    Lobatto is the seven-point rule applied once: it returns the
    seven-point estimate of the whole interval, or NaN when the integrand
    or the estimate is not finite, after at most seven evaluations and
    without subdividing; epsilon plays no part. *)
Theorem Lobatto_single_panel f a b eps md :
  md = 0%N
  \/ (abs (Lobatto_h (Lobatto_start f a b) (Lobatto_end f a b))
      <? numeric_interval) = true ->
  value (Lobatto.Lobatto f a b eps md) = Some (Lobatto_panel f a b)
  /\ (evaluations (trace (Lobatto.Lobatto f a b eps md)) <= 7)%nat
  /\ subdivisions (trace (Lobatto.Lobatto f a b eps md)) = 0%nat.
Proof.
  intros Hone.
  assert (Hf : Lobatto_final (N.min md 8) (Lobatto_start f a b)
                 (Lobatto_end f a b) 0 = true).
  { unfold Lobatto_final. destruct Hone as [-> | ->]; [|reflexivity].
    apply orb_true_r. }
  destruct (Lobatto_run f a b eps md) as (v & t & E & H).
  rewrite E. cbn [value option_map fst trace]. unfold Lobatto_panel.
  rewrite evaluations_app, subdivisions_app.
  destruct H as [(-> & -> & ->)|(-> & St)].
  { split; [reflexivity|]. split; [cbn; lia|reflexivity]. }
  cbn [andb].
  inversion St; subst; try congruence;
    match goal with H : isfinite _ = _ |- _ => rewrite H end;
    (split; [reflexivity|]; split; [cbn; lia|reflexivity]).
Qed.

(** X7. On an interval narrower than NumericInterval Simpson evaluates the
    integrand at the two bounds and the midpoint only, and returns the
    three-point estimate, or NaN when one of the three samples is not
    finite. *)
Theorem Simpson_narrow_interval f a b eps md :
  (abs (snd (ordered a b) - fst (ordered a b)) <? numeric_interval) = true ->
  value (Simpson.Simpson f a b eps md) = Some (Simpson_panel f a b)
  /\ evaluations (trace (Simpson.Simpson f a b eps md)) = 3%nat.
Proof.
  intros Hw.
  assert (Hs : Simpson_stops (Simpson_start f a b) (Simpson_end f a b)
                 (max eps Simpson_floor) = true).
  { unfold Simpson_stops, Simpson_start, Simpson_end. cbn [Simpson.x].
    rewrite Hw. apply orb_true_r. }
  destruct (Simpson_run f a b eps md) as (v & t & E & H).
  rewrite E. cbn [value option_map fst trace]. unfold Simpson_panel.
  rewrite evaluations_app.
  destruct H as [(-> & -> & ->)|(-> & St)].
  { split; reflexivity. }
  inversion St; subst; try congruence. split; reflexivity.
Qed.

(** X8. A sample that is not finite at a bound of integration ends the run
    at once: Simpson has then evaluated the integrand three times (the two
    bounds and the midpoint), Lobatto twice, and neither has subdivided. *)
Theorem nonfinite_bound_sample_ends_run f a b eps md :
  isfinite (f a) = false \/ isfinite (f b) = false ->
  (evaluations (trace (Simpson.Simpson f a b eps md)) = 3%nat
   /\ subdivisions (trace (Simpson.Simpson f a b eps md)) = 0%nat)
  /\ (evaluations (trace (Lobatto.Lobatto f a b eps md)) = 2%nat
      /\ subdivisions (trace (Lobatto.Lobatto f a b eps md)) = 0%nat).
Proof.
  intros Hab.
  assert (Ho : isfinite (f (fst (ordered a b))) = false
               \/ isfinite (f (snd (ordered a b))) = false).
  { destruct (ordered_cases a b) as [-> | ->]; cbn [fst snd]; tauto. }
  split.
  - destruct (Simpson_run f a b eps md) as (v & t & E & H).
    rewrite E. cbn [trace].
    destruct H as [(_ & _ & ->)|(Hfin & _)]; [split; reflexivity|].
    unfold Simpson_endpoints_finite, Simpson_start, Simpson_end in Hfin.
    cbn [Simpson.y] in Hfin.
    apply andb_prop in Hfin. destruct Hfin as [Hfin _].
    apply andb_prop in Hfin. destruct Hfin, Ho; congruence.
  - destruct (Lobatto_run f a b eps md) as (v & t & E & H).
    rewrite E. cbn [trace].
    destruct H as [(_ & _ & ->)|(Hfin & _)]; [split; reflexivity|].
    unfold Lobatto_endpoints_finite, Lobatto_start, Lobatto_end in Hfin.
    cbn [Lobatto.y] in Hfin.
    apply andb_prop in Hfin. destruct Hfin, Ho; congruence.
Qed.

End FurtherProofs.

(** *** Printing *)

Section PrintingProofs.
Context {fmt : Format}.
Variable format_fixed : Real -> N -> String.string.
Variable format_general : Real -> String.string.

Lemma max_digits_pos : (0 < max_digits)%N.
Proof. unfold max_digits. lia. Qed.

(** X9. [RealToString] never asks for more than [max_digits] decimals: a
    request for more, which as a [uint8_t] is below 256, prints as a
    request for [max_digits] does. *)
Theorem RealToString_clamps_decimals (value : Real) (decimals : N) :
  (max_digits < 256)%N -> (max_digits <= decimals)%N -> (decimals < 256)%N ->
  RealToString format_fixed format_general value decimals
  = RealToString format_fixed format_general value max_digits.
Proof.
  intros Hsmall Hle _. pose proof max_digits_pos as Hpos.
  unfold RealToString. rewrite (uint8_small max_digits) by lia.
  destruct (N.eqb_spec decimals 0) as [->|_]; [lia|].
  destruct (N.eqb_spec max_digits 0) as [E|_]; [lia|].
  now rewrite N.min_r, N.min_id by lia.
Qed.

(** X10. [operator<<] narrows the precision of [std::cout] to eight bits:
    precisions that differ by a multiple of 256 print alike, and a
    multiple of 256 prints the general format, as precision 0 does. *)
Theorem operator_shl_narrows_precision (os : String.string) (value : Real)
    (precision k : Z) :
  operator_shl format_fixed format_general os (precision + 256 * k) value
  = operator_shl format_fixed format_general os precision value
  /\ operator_shl format_fixed format_general os (256 * k) value
     = String.append os (format_general value).
Proof.
  unfold operator_shl. split.
  - replace (precision + 256 * k)%Z with (precision + k * 256)%Z by lia.
    now rewrite Z.mod_add by lia.
  - replace (256 * k)%Z with (k * 256)%Z by lia.
    now rewrite Z.mod_mul by lia.
Qed.
End PrintingProofs.

(** ** The further properties at concrete inputs, in binary128 *)

Section FurtherExamples.
Local Existing Instance binary128.
Local Open Scope real_scope.

(** X1 at a concrete input: the constant 1 from 0 to infinity. *)
Lemma Simpson_unbounded_interval_witness :
  (numeric_epsilon <? Simpson_floor) = true
  /\ (isfinite (of_Z 0) = false \/ isfinite (S754_infinity false) = false)
  /\ value (Simpson.Simpson (func_const (of_Z 1)) (of_Z 0) (S754_infinity false)
              default_epsilon 8) = Some NaN.
Proof.
  assert (Hf : (numeric_epsilon <? Simpson_floor) = true) by (vm_compute; reflexivity).
  assert (Hb : isfinite (of_Z 0) = false \/ isfinite (S754_infinity false) = false)
    by (right; reflexivity).
  split; [exact Hf|]. split; [exact Hb|].
  exact (Simpson_unbounded_interval (func_const (of_Z 1)) (of_Z 0)
           (S754_infinity false) default_epsilon 8 Hf Hb).
Defined.

(** X2 at a concrete input: the constant 1 from 0 to infinity. *)
Lemma Lobatto_unbounded_interval_witness :
  (isfinite (of_Z 0) = false \/ isfinite (S754_infinity false) = false)
  /\ value (Lobatto.Lobatto (func_const (of_Z 1)) (of_Z 0) (S754_infinity false)
              default_epsilon 2) = Some NaN
  /\ (evaluations (trace (Lobatto.Lobatto (func_const (of_Z 1)) (of_Z 0)
                            (S754_infinity false) default_epsilon 2)) <= 7)%nat.
Proof.
  assert (Hb : isfinite (of_Z 0) = false \/ isfinite (S754_infinity false) = false)
    by (right; reflexivity).
  split; [exact Hb|].
  exact (Lobatto_unbounded_interval (func_const (of_Z 1)) (of_Z 0)
           (S754_infinity false) default_epsilon 2 Hb).
Defined.

(** X3 at a concrete input: with epsilon 0, clamped to 512 times machine
    epsilon, ten halvings are enough, so that 1/(3x-1)^2 on [0, 1] costs at
    most 2049 evaluations at max_depth 22. *)
Lemma Simpson_halving_bounds_work_witness :
  (halved 10 (max (of_Z 0) Simpson_floor) <? numeric_epsilon) = true
  /\ exists v t,
       Simpson.Simpson (func_pole 3) (of_Z 0) (of_Z 1) (of_Z 0) 22 = Some (v, t)
       /\ (evaluations t <= 2 ^ (10 + 1) + 1)%nat
       /\ (subdivisions t < 2 ^ 10)%nat.
Proof.
  assert (Hk : (halved 10 (max (of_Z 0) Simpson_floor) <? numeric_epsilon) = true)
    by (vm_compute; reflexivity).
  split; [exact Hk|].
  exact (Simpson_halving_bounds_work (func_pole 3) (of_Z 0) (of_Z 1) (of_Z 0) 22 10 Hk).
Defined.

(** X6 at a concrete input: 6x^2 - 8x + 5 on [1, 4] with max_depth 0. *)
Lemma Lobatto_single_panel_witness :
  (0%N = 0%N
   \/ (abs (Lobatto_h (Lobatto_start func_poly (of_Z 1) (of_Z 4))
                      (Lobatto_end func_poly (of_Z 1) (of_Z 4)))
       <? numeric_interval) = true)
  /\ value (Lobatto.Lobatto func_poly (of_Z 1) (of_Z 4) default_epsilon 0)
     = Some (Lobatto_panel func_poly (of_Z 1) (of_Z 4))
  /\ (evaluations (trace (Lobatto.Lobatto func_poly (of_Z 1) (of_Z 4)
                            default_epsilon 0)) <= 7)%nat
  /\ subdivisions (trace (Lobatto.Lobatto func_poly (of_Z 1) (of_Z 4)
                            default_epsilon 0)) = 0%nat.
Proof.
  assert (H0 : 0%N = 0%N
               \/ (abs (Lobatto_h (Lobatto_start func_poly (of_Z 1) (of_Z 4))
                                  (Lobatto_end func_poly (of_Z 1) (of_Z 4)))
                   <? numeric_interval) = true)
    by (left; reflexivity).
  split; [exact H0|].
  exact (Lobatto_single_panel func_poly (of_Z 1) (of_Z 4) default_epsilon 0 H0).
Defined.

(** X7 at a concrete input: 6x^2 - 8x + 5 on [1, 1 + 2^-60]. *)
Lemma Simpson_narrow_interval_witness :
  (abs (snd (ordered (of_Z 1) (of_Z 1 + pow2 (-60)))
        - fst (ordered (of_Z 1) (of_Z 1 + pow2 (-60))))
   <? numeric_interval) = true
  /\ value (Simpson.Simpson func_poly (of_Z 1) (of_Z 1 + pow2 (-60))
              default_epsilon 8)
     = Some (Simpson_panel func_poly (of_Z 1) (of_Z 1 + pow2 (-60)))
  /\ evaluations (trace (Simpson.Simpson func_poly (of_Z 1)
                           (of_Z 1 + pow2 (-60)) default_epsilon 8)) = 3%nat.
Proof.
  assert (Hw : (abs (snd (ordered (of_Z 1) (of_Z 1 + pow2 (-60)))
                     - fst (ordered (of_Z 1) (of_Z 1 + pow2 (-60))))
                <? numeric_interval) = true) by (vm_compute; reflexivity).
  split; [exact Hw|].
  exact (Simpson_narrow_interval func_poly (of_Z 1) (of_Z 1 + pow2 (-60))
           default_epsilon 8 Hw).
Defined.

(** X8 at a concrete input: 1/(x-1)^2 on [1, 2], infinite at the lower
    bound. *)
Lemma nonfinite_bound_sample_ends_run_witness :
  (isfinite (func_pole 1 (of_Z 1)) = false
   \/ isfinite (func_pole 1 (of_Z 2)) = false)
  /\ (evaluations (trace (Simpson.Simpson (func_pole 1) (of_Z 1) (of_Z 2)
                            default_epsilon 8)) = 3%nat
      /\ subdivisions (trace (Simpson.Simpson (func_pole 1) (of_Z 1) (of_Z 2)
                                default_epsilon 8)) = 0%nat)
  /\ (evaluations (trace (Lobatto.Lobatto (func_pole 1) (of_Z 1) (of_Z 2)
                            default_epsilon 2)) = 2%nat
      /\ subdivisions (trace (Lobatto.Lobatto (func_pole 1) (of_Z 1) (of_Z 2)
                                default_epsilon 2)) = 0%nat).
Proof.
  assert (Hp : isfinite (func_pole 1 (of_Z 1)) = false
               \/ isfinite (func_pole 1 (of_Z 2)) = false)
    by (left; vm_compute; reflexivity).
  split; [exact Hp|].
  split.
  - exact (proj1 (nonfinite_bound_sample_ends_run (func_pole 1) (of_Z 1) (of_Z 2)
                    default_epsilon 8 Hp)).
  - exact (proj2 (nonfinite_bound_sample_ends_run (func_pole 1) (of_Z 1) (of_Z 2)
                    default_epsilon 2 Hp)).
Defined.

(** X9 at a concrete input: binary128 has 33 decimal digits, so that a
    request for 200 decimals prints 34; the formatter here prints a zero
    for every decimal it is asked for. *)
Lemma RealToString_clamps_decimals_witness :
  (max_digits < 256)%N /\ (max_digits <= 200)%N /\ (200 < 256)%N
  /\ RealToString (fun _ n => String.string_of_list_ascii
                                (repeat (Ascii.ascii_of_nat 48) (N.to_nat n)))
                  (fun _ => String.EmptyString) (of_Z 1) 200
     = RealToString (fun _ n => String.string_of_list_ascii
                                  (repeat (Ascii.ascii_of_nat 48) (N.to_nat n)))
                    (fun _ => String.EmptyString) (of_Z 1) max_digits.
Proof.
  assert (Hs : (max_digits < 256)%N) by (vm_compute; reflexivity).
  assert (Hl : (max_digits <= 200)%N) by (vm_compute; discriminate).
  assert (Hd : (200 < 256)%N) by reflexivity.
  split; [exact Hs|]. split; [exact Hl|]. split; [exact Hd|].
  exact (RealToString_clamps_decimals _ _ (of_Z 1) 200 Hs Hl Hd).
Defined.
End FurtherExamples.
